(** * Rain-block aggregation of [today.js]

    A shallow embedding of [groupByTimeSlots] and [formatRainBlocks] from
    [src/today.js], and the properties of the rain windows they produce.

    Conventions of the embedding:
    - a JavaScript array that is only read, or that is built locally and
      never shared, is a [list]; the mutable-store view of the same code,
      with array and object identities, is in [Module Store] below;
    - [dt] (a Unix timestamp in seconds) is an integer; on integers below
      2^53 the double-precision subtraction and comparison of the source
      are exact, so [Z] is the value the code computes with;
    - [pop] is an IEEE-754 binary64 number, the type of every JavaScript
      number: Rocq's primitive [float];
    - reading a property of [undefined] throws a [TypeError]: fallible
      steps live in the [result] monad. *)

From Stdlib Require Import ZArith QArith Qabs Floats Lia.
From stdpp Require Import base list strings pretty gmap.

Set Warnings "-inexact-float".
#[local] Open Scope Z_scope.

(** ** Data *)

(** One element of [data.hourly]: the two fields the code reads. *)
Record sample := Sample { dt : Z; pop : float }.

(** A rain window: the array [block] of the source. *)
Abbreviation block := (list sample).

(** ** Exceptions *)

Inductive result (A : Type) : Type :=
| Ok (a : A)
| TypeError.
Arguments Ok {A} a.
Arguments TypeError {A}.

#[global] Instance result_ret : MRet result := @Ok.
#[global] Instance result_bind : MBind result := λ A B f m,
  match m with
  | Ok a => f a
  | TypeError => TypeError
  end.

(** [o.dt] where [o] was read from an array: [undefined.dt] throws. *)
Definition get_dt (o : option sample) : result Z :=
  match o with
  | Some h => Ok (dt h)
  | None => TypeError
  end.

(** ** [groupByTimeSlots] *)

(** The test [h.pop < 0.4] of line 38, negated: the sample is kept.
    IEEE comparison: a NaN is not below the threshold. *)
Definition qualifies (h : sample) : bool := negb (pop h <? 0.4)%float.

(** One iteration of the [for] loop (lines 37-50) on the loop state
    [(blocks, block)]. *)
Definition loop_body (st : list block * block) (h : sample)
  : result (list block * block) :=
  let '(blocks, blk) := st in
  if (pop h <? 0.4)%float then Ok (blocks, blk)
  else if (length blk =? 0)%nat then Ok (blocks, blk ++ [h])
  else
    let last := blk !! (length blk - 1)%nat in
    last_dt ← get_dt last;
    if (dt h - last_dt <=? 7200) && (length blk <? 4)%nat
    then Ok (blocks, blk ++ [h])
    else Ok (blocks ++ [blk], [h]).

(** The [for] loop over [hourlyData], index 0 upwards. *)
Fixpoint for_loop (hourlyData : list sample) (st : list block * block)
  : result (list block * block) :=
  match hourlyData with
  | [] => Ok st
  | h :: rest => st' ← loop_body st h; for_loop rest st'
  end.

(** The comparator [(a, b) => a[0].dt - b[0].dt] of line 54. *)
Definition compareBlocks (a b : block) : result Z :=
  x ← get_dt (a !! 0%nat);
  y ← get_dt (b !! 0%nat);
  Ok (x - y).

(** [Array.prototype.sort] with a comparator. ECMAScript (2019 on)
    requires a stable sort; for a comparator that is a total preorder
    every stable sort returns the same array, here computed by stable
    insertion. An exception of the comparator aborts the sort. *)
Section Sort.
Context {A : Type} (cmp : A → A → result Z).

Fixpoint sort_insert (x : A) (l : list A) : result (list A) :=
  match l with
  | [] => Ok [x]
  | y :: l' =>
      c ← cmp x y;
      if c <=? 0 then Ok (x :: y :: l')
      else (r ← sort_insert x l'; Ok (y :: r))
  end.

Fixpoint Array_sort (l : list A) : result (list A) :=
  match l with
  | [] => Ok []
  | x :: l' => s ← Array_sort l'; sort_insert x s
  end.
End Sort.

Definition groupByTimeSlots (hourlyData : list sample) : result (list block) :=
  '(blocks, blk) ← for_loop hourlyData ([], []);
  let blocks := if (0 <? length blk)%nat then blocks ++ [blk] else blocks in
  Array_sort compareBlocks blocks.

(** ** The loop as a total function

    [loop_body] never takes its exceptional branch: [step] is the state
    transformer it computes, [close] is line 52 and [windows] the array
    handed to the final sort. *)

Definition step (st : list block * block) (h : sample) : list block * block :=
  if qualifies h then
    match last st.2 with
    | None => (st.1, [h])
    | Some l =>
        if (dt h - dt l <=? 7200) && (length st.2 <? 4)%nat
        then (st.1, st.2 ++ [h])
        else (st.1 ++ [st.2], [h])
    end
  else st.

Definition close (st : list block * block) : list block :=
  if (0 <? length st.2)%nat then st.1 ++ [st.2] else st.1.

Definition windows (hourlyData : list sample) : list block :=
  close (foldl step ([], []) hourlyData).

(** The samples held by a loop state, oldest first. *)
Definition flat (st : list block * block) : list sample :=
  concat st.1 ++ st.2.

(** ** Order predicates *)

(** [adjacent R l]: every two neighbours of [l] are related by [R]. *)
Definition adjacent {A : Type} (R : A → A → Prop) (l : list A) : Prop :=
  ∀ i a b, l !! i = Some a → l !! S i = Some b → R a b.

(** [ordered R l]: timestamps of any earlier and later element of [l] are
    related by [R]. *)
Definition ordered (R : Z → Z → Prop) (l : list sample) : Prop :=
  ∀ i j a b, (i < j)%nat → l !! i = Some a → l !! j = Some b → R (dt a) (dt b).

(** Input in non-decreasing timestamp order. *)
Definition chronological : list sample → Prop := ordered Z.le.

(** Input in increasing timestamp order: sorted, timestamps unique. *)
Definition strictly_chronological : list sample → Prop := ordered Z.lt.

(** Gap between the end of one window and the start of the next. *)
Definition gap_exceeded (w1 w2 : block) : Prop :=
  ∃ a b, last w1 = Some a ∧ head w2 = Some b ∧ 7200 < dt b - dt a.

(** Why a window was closed before the next one started. *)
Definition forced_break (w1 w2 : block) : Prop :=
  length w1 = 4%nat ∨ gap_exceeded w1 w2.

(** Neighbours inside a window are at most two hours apart. *)
Definition within_gap (a b : sample) : Prop := dt b - dt a ≤ 7200.

(** The start of the earlier window is related to the start of the later. *)
Definition starts (R : Z → Z → Prop) (w1 w2 : block) : Prop :=
  ∃ a b, head w1 = Some a ∧ head w2 = Some b ∧ R (dt a) (dt b).

(** The qualifying subsequence of the input. *)
Definition qualifying (hourlyData : list sample) : list sample :=
  filter (λ h, qualifies h = true) hourlyData.

(** ** The loop invariant *)

Record loop_inv (st : list block * block) : Prop := LoopInv {
  inv_sizes : Forall (λ w : block, (1 ≤ length w ≤ 4)%nat) st.1;
  inv_open : (length st.2 ≤ 4)%nat;
  inv_started : st.2 = [] → st.1 = [];
  inv_gaps : Forall (adjacent within_gap) (st.2 :: st.1);
  inv_breaks : adjacent forced_break (close st)
}.

(** ** The scan in the words of the specification

    The state is the sequence of closed windows and the open window, if
    one is open. *)

Module Spec.

(** A new window starts when (a) no window is open, (b) the gap to the
    last member of the open window exceeds 7200, or (c) the open window
    already holds 4 samples. *)
Definition breaks (open : option block) (h : sample) : bool :=
  match open with
  | None => true
  | Some w =>
      match last w with
      | Some l => 7200 <? dt h - dt l
      | None => false
      end
      || (length w =? 4)%nat
  end.

(** On a break the open window is appended to the result and a new one
    is opened with the current sample only; otherwise the sample joins
    the open window. *)
Definition scan_step (st : list block * option block) (h : sample)
  : list block * option block :=
  if breaks st.2 h then (st.1 ++ option_list st.2, Some [h])
  else (st.1, (λ w, w ++ [h]) <$> st.2).

(** After the scan a non-empty open window is appended. *)
Definition finish (st : list block * option block) : list block :=
  match st.2 with
  | Some (x :: w) => st.1 ++ [x :: w]
  | _ => st.1
  end.

(** A single left-to-right scan over the qualifying samples. *)
Definition groupIntoWindows (samples : list sample) : list block :=
  finish (foldl scan_step ([], None) (qualifying samples)).

End Spec.

(** The specification's view of a loop state of the code. *)
Definition open_window (st : list block * block) : list block * option block :=
  (st.1, match st.2 with [] => None | _ => Some st.2 end).

(** The first example of the specification: four hourly samples, the
    third below the threshold. *)
Definition example_day : list sample :=
  [Sample 0 0.5; Sample 3600 0.6; Sample 7200 0.3; Sample 18000 0.7].

(** The second example of the specification: five qualifying samples
    one hour apart. *)
Definition example_run : list sample :=
  [Sample 0 0.5; Sample 3600 0.5; Sample 7200 0.5; Sample 10800 0.5;
   Sample 14400 0.5].

(** ** [formatRainBlocks] *)

(** The value of [Math.round]: an integer, or the NaN or infinity it was
    given. A negative zero is recorded as the integer 0, which is how a
    template literal prints it. *)
Inductive rounded : Type :=
| RNaN
| RInfinity (negative : bool)
| RInteger (n : Z).

(** The integer [±m] of a finite double [±m * 2^e]. *)
Definition signed (s : bool) (m : positive) : Z :=
  if s then Z.neg m else Z.pos m.

(** [Math.round] on a finite non-zero double [±m * 2^e]: the closest
    integer, the larger one of two equally close: [floor (x + 1/2)]
    computed without rounding. *)
Definition round_half_up (s : bool) (m : positive) (e : Z) : Z :=
  if 0 <=? e then signed s m * 2 ^ e
  else (2 * signed s m + 2 ^ (- e)) / 2 ^ (1 - e).

Definition Math_round (x : float) : rounded :=
  match Prim2SF x with
  | S754_zero _ => RInteger 0
  | S754_infinity s => RInfinity s
  | S754_nan => RNaN
  | S754_finite s m e => RInteger (round_half_up s m e)
  end.

(** [block.length] as a number. *)
Definition Number_of_length (n : nat) : float :=
  PrimFloat.of_uint63 (Uint63.of_Z (Z.of_nat n)).

(** [block.reduce((sum, h) => sum + h.pop, 0) / block.length * 100]. *)
Definition mean_percent (blk : block) : float :=
  (foldl (λ sum h, sum + pop h) 0 blk / Number_of_length (length blk) * 100)%float.

Definition avgProb (blk : block) : rounded := Math_round (mean_percent blk).

Definition tab : string := String (Ascii.ascii_of_nat 9) "".

Section Format.

(** [getTime]: [toLocaleTimeString('en-IN', ...)] of the timestamp, which
    depends on the time zone and locale data of the host. *)
Variable getTime : Z → string.

(** How a template literal prints an integer double above 2^53: the
    shortest digits that read back as the same double, in exponent
    notation from 10^21 on. Not computed here. *)
Variable toString_large : Z → string.

(** [`${avgProb}`]. Up to 2^53 every integer is a double and prints as
    its decimal digits. *)
Definition toString (r : rounded) : string :=
  match r with
  | RNaN => "NaN"
  | RInfinity false => "Infinity"
  | RInfinity true => "-Infinity"
  | RInteger n => if Z.abs n <=? 2 ^ 53 then pretty n else toString_large n
  end.

(** The callback of [blocks.map] (lines 58-63). *)
Definition formatRainBlock (blk : block) : result string :=
  start_dt ← get_dt (blk !! 0%nat);
  end_dt ← get_dt (blk !! (length blk - 1)%nat);
  Ok (tab +:+ tab +:+ "• " +:+ getTime start_dt +:+ " to " +:+ getTime end_dt
      +:+ " – " +:+ toString (avgProb blk) +:+ "%").

(** [blocks.map(f)]: an exception of [f] aborts the call. *)
Fixpoint Array_map {A B : Type} (f : A → result B) (l : list A)
  : result (list B) :=
  match l with
  | [] => Ok []
  | x :: l' => y ← f x; r ← Array_map f l'; Ok (y :: r)
  end.

Definition formatRainBlocks (blocks : list block) : result (list string) :=
  Array_map formatRainBlock blocks.

End Format.

(** ** Exact values of doubles *)

(** The rational a finite double stands for. *)
Definition SF2Q (x : spec_float) : option Q :=
  match x with
  | S754_zero _ => Some 0%Q
  | S754_finite s m e =>
      Some (if 0 <=? e then inject_Z (signed s m * 2 ^ e)
            else signed s m # Z.to_pos (2 ^ (- e)))
  | _ => None
  end.

Definition exact (x : float) : option Q := SF2Q (Prim2SF x).


(** [n] is an integer closest to [v]. *)
Definition nearest (v : Q) (n : Z) : Prop :=
  (Qabs (v - inject_Z n) <= 1 # 2)%Q.

(** The arithmetic mean of the members' probabilities, times 100, in
    exact arithmetic. *)
Fixpoint exact_sum (blk : block) : option Q :=
  match blk with
  | [] => Some 0%Q
  | h :: rest => x ← exact (pop h); s ← exact_sum rest; Some (x + s)%Q
  end.

Definition exact_mean_percent (blk : block) : option Q :=
  s ← exact_sum blk;
  Some (s / inject_Z (Z.of_nat (length blk)) * inject_Z 100)%Q.

(** * The same code on a store

    [groupByTimeSlots] builds and mutates arrays: [blocks], the successive
    [block]s, and the in-place [sort]. Here arrays and sample objects live
    in a store and are handled through references, so that what a call
    writes, and to which object, can be stated. *)

Module Store.

(** The identity of an object. *)
Abbreviation loc := positive.

(** What a variable or an array slot holds. *)
Inductive val : Type :=
| Undefined
| Ref (r : loc).

Inductive object : Type :=
| OSample (h : sample)
| OArray (elems : list val).

Abbreviation heap := (gmap loc object).

(** How a computation ends: it returns, throws a [TypeError], meets an
    object of a kind the code does not expect (no such store is described
    here), or exhausts the iteration budget of the model. *)
Inductive outcome (A : Type) : Type :=
| Returns (a : A)
| Throws
| IllTyped
| OutOfFuel.
Arguments Returns {A} a.
Arguments Throws {A}.
Arguments IllTyped {A}.
Arguments OutOfFuel {A}.

Definition M (A : Type) : Type := heap → outcome A * heap.

#[global] Instance M_ret : MRet M := λ A a σ, (Returns a, σ).
#[global] Instance M_bind : MBind M := λ A B f m σ,
  match m σ with
  | (Returns a, σ') => f a σ'
  | (Throws, σ') => (Throws, σ')
  | (IllTyped, σ') => (IllTyped, σ')
  | (OutOfFuel, σ') => (OutOfFuel, σ')
  end.

(** An array literal: a new object. *)
Definition new_array (elems : list val) : M val := λ σ,
  let r := fresh (dom σ) in (Returns (Ref r), <[r := OArray elems]> σ).

(** The elements of the array [a]. *)
Definition elements (a : val) : M (list val) := λ σ,
  match a with
  | Undefined => (Throws, σ)
  | Ref r =>
      match σ !! r with
      | Some (OArray l) => (Returns l, σ)
      | _ => (IllTyped, σ)
      end
  end.

(** [a.length] *)
Definition Array_length (a : val) : M nat :=
  l ← elements a; mret (length l).

(** [a[i]] *)
Definition Array_get (a : val) (i : nat) : M val :=
  l ← elements a; mret (default Undefined (l !! i)).

(** [a.push(x)] *)
Definition Array_push (a x : val) : M unit := λ σ,
  match a with
  | Undefined => (Throws, σ)
  | Ref r =>
      match σ !! r with
      | Some (OArray l) => (Returns (), <[r := OArray (l ++ [x])]> σ)
      | _ => (IllTyped, σ)
      end
  end.

(** [o.dt] and [o.pop] *)
Definition field {A : Type} (f : sample → A) (o : val) : M A := λ σ,
  match o with
  | Undefined => (Throws, σ)
  | Ref r =>
      match σ !! r with
      | Some (OSample h) => (Returns (f h), σ)
      | _ => (IllTyped, σ)
      end
  end.

(** [a.sort(cmp)]: sorts in place and returns [a]. *)
Fixpoint sort_insert (cmp : val → val → M Z) (x : val) (l : list val)
  : M (list val) :=
  match l with
  | [] => mret [x]
  | y :: l' =>
      c ← cmp x y;
      if c <=? 0 then mret (x :: y :: l')
      else (r ← sort_insert cmp x l'; mret (y :: r))
  end.

Fixpoint sort_list (cmp : val → val → M Z) (l : list val) : M (list val) :=
  match l with
  | [] => mret []
  | x :: l' => s ← sort_list cmp l'; sort_insert cmp x s
  end.

Definition set_elements (a : val) (l : list val) : M unit := λ σ,
  match a with
  | Undefined => (Throws, σ)
  | Ref r =>
      match σ !! r with
      | Some (OArray _) => (Returns (), <[r := OArray l]> σ)
      | _ => (IllTyped, σ)
      end
  end.

Definition Array_sort (cmp : val → val → M Z) (a : val) : M val :=
  l ← elements a;
  s ← sort_list cmp l;
  set_elements a s;;
  mret a.

(** [(a, b) => a[0].dt - b[0].dt] *)
Definition compareBlocks (a b : val) : M Z :=
  a0 ← Array_get a 0;
  x ← field dt a0;
  b0 ← Array_get b 0;
  y ← field dt b0;
  mret (x - y).

(** Lines 37-50: one iteration at index [i]; returns the array the
    variable [block] holds afterwards. *)
Definition loop_body (hourlyData blocks : val) (i : nat) (block : val)
  : M val :=
  h ← Array_get hourlyData i;
  p ← field pop h;
  if (p <? 0.4)%float then mret block
  else
    n ← Array_length block;
    if (n =? 0)%nat then Array_push block h;; mret block
    else
      last ← Array_get block (n - 1);
      h_dt ← field dt h;
      last_dt ← field dt last;
      n' ← Array_length block;
      if (h_dt - last_dt <=? 7200) && (n' <? 4)%nat
      then Array_push block h;; mret block
      else Array_push blocks block;; new_array [h].

(** [for (let i = 0; i < hourlyData.length; i++)], with a budget of
    [fuel] evaluations of the loop test. *)
Fixpoint for_loop (fuel : nat) (hourlyData blocks : val) (i : nat)
    (block : val) : M val :=
  match fuel with
  | O => λ σ, (OutOfFuel, σ)
  | S fuel' =>
      len ← Array_length hourlyData;
      if (i <? len)%nat
      then block' ← loop_body hourlyData blocks i block;
           for_loop fuel' hourlyData blocks (S i) block'
      else mret block
  end.

Definition groupByTimeSlots (fuel : nat) (hourlyData : val) : M val :=
  blocks ← new_array [];
  block ← new_array [];
  block ← for_loop fuel hourlyData blocks 0 block;
  n ← Array_length block;
  (if (0 <? n)%nat then Array_push blocks block else mret ());;
  Array_sort compareBlocks blocks.

End Store.

(** ** What a call leaves untouched

    [preserves σ0 P m]: run from any store that extends [σ0], [m] ends in
    a store that still extends [σ0], however it ends, and a returned value
    satisfies [P]. *)

Definition preserves (σ0 : Store.heap) {A : Type} (P : A → Prop)
    (m : Store.M A) : Prop :=
  ∀ σ, σ0 ⊆ σ → σ0 ⊆ (m σ).2 ∧ ∀ a, (m σ).1 = Store.Returns a → P a.

(** A value that is not an object of [σ0]. *)
Definition fresh_in (σ0 : Store.heap) (v : Store.val) : Prop :=
  ∀ r, v = Store.Ref r → σ0 !! r = None.

(** ** The store model computes [groupByTimeSlots]

    The caller's store [σ0] holds the input array [hourlyData] with
    elements [vs], each a reference to a sample object. *)

(** The array elements [vs] are references to the sample objects [hs]. *)
Definition is_samples (σ0 : Store.heap) (vs : list Store.val)
    (hs : list sample) : Prop :=
  Forall2 (λ v h, ∃ r, v = Store.Ref r ∧ σ0 !! r = Some (Store.OSample h))
          vs hs.

(** [v] is an array made by the call, whose elements are the caller's
    sample objects [w]. *)
Definition is_window (σ0 σ : Store.heap) (v : Store.val) (w : block) : Prop :=
  ∃ r es, v = Store.Ref r ∧ σ0 !! r = None ∧
          σ !! r = Some (Store.OArray es) ∧ is_samples σ0 es w.

(** The store during the loop: [rbs] and [rb] are the arrays [blocks] and
    [block] of the call, holding the loop state [st] of the list model. *)
Record store_inv (σ0 : Store.heap) (rbs rb : Store.loc)
    (st : list block * block) (σ : Store.heap) : Prop := StoreInv {
  si_base : σ0 ⊆ σ;
  si_blocks_fresh : σ0 !! rbs = None;
  si_block_fresh : σ0 !! rb = None;
  si_distinct : rbs ≠ rb;
  si_blocks : ∃ bvs, σ !! rbs = Some (Store.OArray bvs) ∧
                     Forall2 (is_window σ0 σ) bvs st.1 ∧
                     Forall (λ v, v ≠ Store.Ref rbs ∧ v ≠ Store.Ref rb)
                            bvs;
  si_block : ∃ es, σ !! rb = Some (Store.OArray es) ∧
                   is_samples σ0 es st.2
}.

(** A window of the call other than the array [rbs]. *)
Definition is_window_of (σ0 σ : Store.heap) (rbs : Store.loc)
    (v : Store.val) (w : block) : Prop :=
  is_window σ0 σ v w ∧ v ≠ Store.Ref rbs.

(** A caller's store: the input array at 1 and its four sample objects. *)
Definition example_store : Store.heap :=
  <[1%positive := Store.OArray [Store.Ref 2; Store.Ref 3; Store.Ref 4;
                                Store.Ref 5]]>
  (<[2%positive := Store.OSample (Sample 0 0.5)]>
  (<[3%positive := Store.OSample (Sample 3600 0.6)]>
  (<[4%positive := Store.OSample (Sample 7200 0.3)]>
  (<[5%positive := Store.OSample (Sample 18000 0.7)]> ∅)))).

(** * The report of [displayForecast]

    The rest of [today.js]: the daily summary, the two slices of the
    hourly forecast and the lines written to the console. The HTTP call
    is an oracle; the response is the part of the One Call document the
    code reads. The loop over the mines is a sequence of statements on a
    console that keeps what was written when an exception is thrown. *)

(** [a.slice(start, end)] for [0 <= start <= end]: the elements from
    index [start] up to, not including, index [end], as far as the array
    reaches. *)
Definition Array_slice {A : Type} (start end_ : nat) (l : list A) : list A :=
  take (end_ - start) (drop start l).

Module OneCall.

Record Weather : Type := { description : string }.

Record Temp : Type := { max : float; min : float }.

Record Daily : Type := { weather : list Weather; temp : Temp; pop : float }.

Record Data : Type := { daily : list Daily; hourly : list sample }.

End OneCall.

(** A computation that returns or throws the [TypeError] of reading
    [property] of [undefined]. *)
Inductive thrown (A : Type) : Type :=
| Returned (a : A)
| Thrown (property : string).
Arguments Returned {A} a.
Arguments Thrown {A} property.

#[global] Instance thrown_ret : MRet thrown := @Returned.
#[global] Instance thrown_bind : MBind thrown := λ A B f m,
  match m with
  | Returned a => f a
  | Thrown p => Thrown p
  end.

(** Every [TypeError] of [groupByTimeSlots] and [formatRainBlocks] comes
    from reading [dt]. *)
Definition rethrow {A : Type} (r : result A) : thrown A :=
  match r with
  | Ok a => Returned a
  | TypeError => Thrown "dt"
  end.

Definition nl : string := String (Ascii.ascii_of_nat 10) "".

Module Report.

(** The object [summarizeDay] returns. *)
Record summary : Type :=
  { weather : string; max : string; min : string; rain : bool }.

Record mine : Type := { name : string; lat : string; lon : string }.

(** What [fetchWeatherData] resolves to, or the message of the error it
    rejects with. *)
Inductive fetched : Type :=
| Fetched (data : OneCall.Data)
| Rejected (message : string).

(** A call of [console.log] or of [console.error]. *)
Inductive console : Type :=
| log (line : string)
| error (line : string).

(** How a statement completes: normally with a value, or abruptly with
    the exception it throws, of which the script only reads [message]. *)
Inductive completion (A : Type) : Type :=
| Normal (a : A)
| Abrupt (message : string).
Arguments Normal {A} a.
Arguments Abrupt {A} message.

(** A statement of the script: it starts with the calls the console has
    received so far and adds its own. What was written before an
    exception stays written. *)
Definition script (A : Type) : Type :=
  list console → completion A * list console.

#[global] Instance script_ret : MRet script := λ A a out, (Normal a, out).
#[global] Instance script_bind : MBind script := λ A B f m out,
  match m out with
  | (Normal a, out') => f a out'
  | (Abrupt message, out') => (Abrupt message, out')
  end.

Definition console_log (line : string) : script () := λ out,
  (Normal (), out ++ [log line]).

Definition console_error (line : string) : script () := λ out,
  (Normal (), out ++ [error line]).

Definition throw {A : Type} (message : string) : script A := λ out,
  (Abrupt message, out).

(** [try { body } catch (err) { handler(err.message) }] *)
Definition try_catch (body : script ()) (handler : string → script ())
  : script () := λ out,
  match body out with
  | (Normal a, out') => (Normal a, out')
  | (Abrupt message, out') => handler message out'
  end.

(** Successive [console.log] calls, one per line. *)
Fixpoint console_log_each (lines : list string) : script () :=
  match lines with
  | [] => mret ()
  | line :: rest => console_log line;; console_log_each rest
  end.

(** The last line of a day's report when rain and a window coincide. *)
Definition impact_line : string :=
  tab +:+ "• Production may be impacted due to rain.".

Section Display.

Variable getTime : Z → string.
Variable toString_large : Z → string.

(** [x.toFixed(1)] *)
Variable toFixed1 : float → string.

(** The message of the [TypeError] for reading a property of
    [undefined], as the engine words it. *)
Variable TypeError_message : string → string.

Variable fetchWeatherData : string → string → fetched.

(** [format(new Date(), 'd MMMM, yyyy')] for today and for tomorrow. *)
Variables today tomorrow : string.

(** Lines 66-71; [daily] is [data.daily[i]], [undefined] when the array
    is too short. *)
Definition summarizeDay (daily : option OneCall.Daily) : thrown summary :=
  match daily with
  | None => Thrown "weather"
  | Some d =>
      match OneCall.weather d !! 0%nat with
      | None => Thrown "description"
      | Some w =>
          Returned {| weather := OneCall.description w;
                      max := toFixed1 (OneCall.max (OneCall.temp d));
                      min := toFixed1 (OneCall.min (OneCall.temp d));
                      rain := (0 <? OneCall.pop d)%float |}
      end
  end.

(** Lines 83-84: [formatRainBlocks(groupByTimeSlots(hourly.slice(..)))]. *)
Definition rainBlocks (start end_ : nat) (data : OneCall.Data)
  : thrown (list string) :=
  rethrow (blocks ← groupByTimeSlots
                      (Array_slice start end_ (OneCall.hourly data));
           formatRainBlocks getTime toString_large blocks).

(** Lines 87-96 and, with [Tomorrow] for [Today], lines 99-108: the
    arguments of the successive [console.log] calls for one day. *)
Definition dayReport (mineName label date : string) (d : summary)
    (blocks : list string) : list string :=
  [nl +:+ "📍 " +:+ mineName +:+ " - Forecast for " +:+ label +:+ ", "
      +:+ date;
   tab +:+ "• Weather: " +:+ weather d;
   tab +:+ "• Max Temp: " +:+ max d +:+ "°C";
   tab +:+ "• Min Temp: " +:+ min d +:+ "°C";
   tab +:+ "• Rain Probability: " +:+ (if rain d then "Yes" else "No");
   tab +:+ "• Rain Timing:";
   if (0 <? length blocks)%nat then String.concat nl blocks
   else tab +:+ tab +:+ "• None"]
  ++ (if rain d && (0 <? length blocks)%nat then [impact_line] else []).

(** The [try] block after the fetch (lines 80-108): everything is
    computed before the first line is written. *)
Definition report (mineName : string) (data : OneCall.Data)
  : thrown (list string) :=
  todayData ← summarizeDay (OneCall.daily data !! 0%nat);
  tomorrowData ← summarizeDay (OneCall.daily data !! 1%nat);
  todayRainBlocks ← rainBlocks 0 24 data;
  tomorrowRainBlocks ← rainBlocks 24 48 data;
  mret (dayReport mineName "Today" today todayData todayRainBlocks
        ++ dayReport mineName "Tomorrow" tomorrow tomorrowData
                     tomorrowRainBlocks).

(** The argument of [console.error] in the [catch] clause. *)
Definition error_line (m : mine) (message : string) : string :=
  nl +:+ "❌ Error fetching data for " +:+ name m +:+ ": " +:+ message.

(** [await fetchWeatherData(mine.lat, mine.lon)] (line 79): a rejected
    promise is thrown at the [await]. *)
Definition await_fetchWeatherData (m : mine) : script OneCall.Data :=
  match fetchWeatherData (lat m) (lon m) with
  | Fetched data => mret data
  | Rejected message => throw message
  end.

(** An expression that may throw a [TypeError], as a statement. *)
Definition evaluate {A : Type} (e : thrown A) : script A :=
  match e with
  | Returned a => mret a
  | Thrown property => throw (TypeError_message property)
  end.

(** One iteration of the loop over [mines] (lines 78-112), statement by
    statement. *)
Definition forecastMine (m : mine) : script () :=
  try_catch
    (data ← await_fetchWeatherData m;
     todayData ← evaluate (summarizeDay (OneCall.daily data !! 0%nat));
     tomorrowData ← evaluate (summarizeDay (OneCall.daily data !! 1%nat));
     todayRainBlocks ← evaluate (rainBlocks 0 24 data);
     tomorrowRainBlocks ← evaluate (rainBlocks 24 48 data);
     console_log_each
       (dayReport (name m) "Today" today todayData todayRainBlocks);;
     console_log_each
       (dayReport (name m) "Tomorrow" tomorrow tomorrowData
                  tomorrowRainBlocks))
    (λ message, console_error (error_line m message)).

(** Lines 77-113: [for (let mine of mines)]. An exception that leaves
    an iteration ends the loop. *)
Fixpoint displayForecast (mines : list mine) : script () :=
  match mines with
  | [] => mret ()
  | m :: rest => forecastMine m;; displayForecast rest
  end.

End Display.

End Report.

(** * The AccuWeather script ([tommorrow.js])

    [getTodayForecast] on what [axios.get] resolves to or rejects with.
    A field that may be absent in the document is an [option]. *)

Module AccuWeather.

Module Hourly.
Record hour : Type := { HasPrecipitation : bool; DateTime : string }.
End Hourly.

Record quantity : Type := { Value : option float }.

Record temperature : Type :=
  { Maximum : option quantity; Minimum : option quantity }.

Record day : Type :=
  { IconPhrase : option string;
    HasPrecipitation : option bool;
    RainProbability : option float;
    HourlyForecasts : option (list Hourly.hour) }.

Record daily_forecast : Type :=
  { Temperature : option temperature; Day : option day; Date : string }.

Record document : Type := { DailyForecasts : option (list daily_forecast) }.

Inductive response : Type :=
| Resolved (data : option document)
| Rejected (message : string).

(** A number, or the text that stands in for it. *)
Inductive shown : Type :=
| Number (x : float)
| Text (s : string).

(** A call of [console.log] or of [console.error] with its arguments. *)
Inductive console : Type :=
| log (line : string)
| error (args : list string).

(** [x || 'N/A'] on a number that may be absent: 0, -0 and NaN are falsy. *)
Definition number_or_NA (x : option float) : shown :=
  match x with
  | Some v => if is_zero v || is_nan v then Text "N/A" else Number v
  | None => Text "N/A"
  end.

(** [x || 'N/A'] on a string that may be absent: the empty string is
    falsy. *)
Definition string_or_NA (x : option string) : string :=
  match x with
  | Some EmptyString | None => "N/A"
  | Some s => s
  end.

(** [daily.Temperature?.Maximum?.Value || 'N/A'] (line 22). *)
Definition maxTemp (daily : daily_forecast) : shown :=
  number_or_NA ((Temperature daily ≫= Maximum) ≫= Value).

(** Line 23. *)
Definition minTemp (daily : daily_forecast) : shown :=
  number_or_NA ((Temperature daily ≫= Minimum) ≫= Value).

(** Line 24. *)
Definition weatherType (daily : daily_forecast) : string :=
  string_or_NA (Day daily ≫= IconPhrase).

(** Line 25. *)
Definition precipitation (daily : daily_forecast) : string :=
  match Day daily ≫= HasPrecipitation with
  | Some true => "Yes"
  | _ => "No"
  end.

(** Line 26. *)
Definition rainChance (daily : daily_forecast) : shown :=
  number_or_NA (Day daily ≫= RainProbability).

Section Script.

(** [`${x}`] for a number. *)
Variable Number_toString : float → string.

(** [new Date(d).toLocaleDateString('en-IN', ...)] and
    [new Date(d).toLocaleTimeString('en-IN', { timeStyle: 'short' })]. *)
Variables toLocaleDateString toLocaleTimeString : string → string.

Definition show (x : shown) : string :=
  match x with
  | Number v => Number_toString v
  | Text s => s
  end.

(** The loop of lines 35-41 from the hour it has reached: the message of
    the first hour with precipitation, where the loop breaks. *)
Fixpoint rain_loop (hours : list Hourly.hour) (rainInNext12Hours : string)
  : string :=
  match hours with
  | [] => rainInNext12Hours
  | hour :: rest =>
      if Hourly.HasPrecipitation hour
      then "Rain expected at " +:+ toLocaleTimeString (Hourly.DateTime hour)
      else rain_loop rest rainInNext12Hours
  end.

(** Lines 33-42. *)
Definition rainInNext12Hours (daily : daily_forecast) : string :=
  match Day daily ≫= HourlyForecasts with
  | Some hours =>
      rain_loop hours "No major rain expected in the next 12 hours."
  | None => "No major rain expected in the next 12 hours."
  end.

(** Lines 10-59 after the request. *)
Definition getTodayForecast (dailyRes : response) : list console :=
  match dailyRes with
  | Rejected message => [error ["Failed to fetch weather data:"; message]]
  | Resolved data =>
      match (data ≫= DailyForecasts) ≫= head with
      | None => [error ["Error: Weather data is missing"]]
      | Some daily =>
          [log ("=== Suliyari Coal Mine Weather Forecast for "
                +:+ toLocaleDateString (Date daily) +:+ " ===");
           log ("Weather: " +:+ weatherType daily);
           log ("Max Temp: " +:+ show (maxTemp daily) +:+ "°C");
           log ("Min Temp: " +:+ show (minTemp daily) +:+ "°C");
           log (nl +:+ "--- Precipitation Info ---");
           log ("Chance of Rain: " +:+ show (rainChance daily) +:+ "%");
           log ("Precipitation: " +:+ precipitation daily);
           log (nl +:+ "--- Hourly Rain Forecast ---");
           log (rainInNext12Hours daily)]
      end
  end.

End Script.

End AccuWeather.

(** * The forecast script ([src/unnamed/part_000])

    [fetchWeather] on the two documents the requests resolve to: the
    current weather and [forecast.list], the three-hourly forecasts. *)

Definition space : Ascii.ascii := Ascii.ascii_of_nat 32.

(** [s.split(c)] for a one-character separator. *)
Fixpoint String_split (c : Ascii.ascii) (s : string) : list string :=
  match s with
  | EmptyString => [EmptyString]
  | String a s' =>
      if Ascii.eqb a c then EmptyString :: String_split c s'
      else
        match String_split c s' with
        | x :: xs => String a x :: xs
        | [] => [String a EmptyString]
        end
  end.

(** [Math.max(...l)]: the largest argument, -Infinity of none, NaN if one
    is NaN, and +0 above -0. *)
Definition Math_max (l : list float) : float :=
  if existsb is_nan l then nan
  else
    foldl (λ highest number,
             if is_zero number && negb (get_sign number)
                && is_zero highest && get_sign highest then number
             else if (highest <? number)%float then number
             else highest)
          neg_infinity l.

(** [Math.min(...l)]: the smallest argument, Infinity of none, NaN if one
    is NaN, and -0 below +0. *)
Definition Math_min (l : list float) : float :=
  if existsb is_nan l then nan
  else
    foldl (λ lowest number,
             if is_zero number && get_sign number
                && is_zero lowest && negb (get_sign lowest) then number
             else if (number <? lowest)%float then number
             else lowest)
          infinity l.

Module Forecast.

(** An element of [current.weather]. *)
Record condition : Type := { main : string; description : string }.

(** The current weather: [weather], [main.temp], [wind.speed],
    [visibility]. *)
Record current : Type :=
  { weather : list condition;
    temp : float;
    wind_speed : float;
    visibility : float }.

(** An element of [forecast.list]: [dt_txt], [main.temp], [pop]. *)
Record item : Type := { dt_txt : string; item_temp : float; pop : float }.

(** An element of [pops]. *)
Record pop_at : Type := { time : string; pop_of : float }.

(** What the script computes about tomorrow (lines 45-53). *)
Record tomorrow : Type :=
  { maxTemp : string;
    minTemp : string;
    rainExpected : bool;
    rainTimes : list string }.

Section Script.

Variable toFixed1 : float → string.
Variable toString_large : Z → string.

(** [shortStamp(now)], [formatDate(now)], [formatDate(tmr)] and
    [tmr.toISOString().split('T')[0]]. *)
Variables stamp todayStr tomorrowStr tmrDateStr : string.

(** Line 45. *)
Definition tmrForecasts (items : list item) : list item :=
  filter (λ item, String.prefix tmrDateStr (dt_txt item) = true) items.

(** [f.dt_txt.split(' ')[1].slice(0,5)]: [slice] of [undefined] throws
    when [dt_txt] has no space. A [string] is a sequence of bytes: in the
    ASCII text of a [dt_txt] (a date, a space, a time of day) the first
    five bytes are the five characters [slice] takes; in other text they
    are its first five bytes, which need not be five characters. *)
Definition time_of (f : item) : thrown string :=
  match String_split space (dt_txt f) !! 1%nat with
  | Some t => Returned (String.substring 0 5 t)
  | None => Thrown "slice"
  end.

(** Line 47: [map] with a callback that may throw. *)
Fixpoint pops (l : list item) : thrown (list pop_at) :=
  match l with
  | [] => Returned []
  | f :: rest =>
      t ← time_of f;
      ps ← pops rest;
      Returned ({| time := t; pop_of := pop f |} :: ps)
  end.

(** The callback of line 53. *)
Definition rainTime (p : pop_at) : string :=
  time p +:+ " (" +:+ toString toString_large (Math_round (pop_of p * 100))
  +:+ "%)".

(** Lines 45-53. *)
Definition forecastTomorrow (items : list item) : thrown tomorrow :=
  let forecasts := tmrForecasts items in
  let temps := item_temp <$> forecasts in
  ps ← pops forecasts;
  Returned
    {| maxTemp := toFixed1 (Math_max temps);
       minTemp := toFixed1 (Math_min temps);
       rainExpected := existsb (λ p, (0.1 <? pop_of p)%float) ps;
       rainTimes :=
         rainTime <$> filter (λ p, (0.1 <? pop_of p)%float = true) ps |}.

(** Lines 28-81 after the two requests: the arguments of the successive
    [console.log] calls. *)
Definition fetchWeather (cur : current) (items : list item)
  : thrown (list string) :=
  match weather cur !! 0%nat with
  | None => Thrown "main"
  | Some w =>
      let todayDesc := description w in
      let todayTemp := toFixed1 (temp cur) in
      let windSpeed := toFixed1 (wind_speed cur) in
      let visibility := toFixed1 (visibility cur / 1000) in
      t ← forecastTomorrow items;
      Returned
        (["[" +:+ stamp +:+ "] Yash Saiwal: Output:" +:+ nl;
          "Suliyari Coal Mine - Weather Forecast for " +:+ todayStr +:+ nl;
          "=== Today's Weather Forecast ===";
          "Weather: " +:+ todayDesc;
          "Temperature: " +:+ todayTemp +:+ "°C" +:+ nl;
          "--- Precipitation Info ---";
          "Precipitation Expected: No";
          "Rain Alert: No rain expected";
          "Production will not be impacted" +:+ nl;
          "--- Additional Info ---";
          "Wind Speed: " +:+ windSpeed +:+ " km/h";
          "Visibility: " +:+ visibility +:+ " km" +:+ nl;
          "Suliyari Coal Mine - Weather Forecast for " +:+ tomorrowStr
            +:+ nl;
          "=== Tomorrow’s Weather Forecast ===" +:+ nl;
          "Max Temperature: " +:+ maxTemp t +:+ "°C";
          "Min Temperature: " +:+ minTemp t +:+ "°C" +:+ nl;
          "--- Precipitation Info ---";
          "Precipitation Expected: "
            +:+ (if rainExpected t then "Yes" else "No");
          "Rain Alert: "
            +:+ (if rainExpected t then "Rain expected"
                 else "No rain expected");
          if rainExpected t then "⚠️ Production may be impacted"
          else "Production will not be impacted"]
         ++ (if rainExpected t
             then ["Rain Probability Timeline: "
                   +:+ String.concat ", " (rainTimes t)]
             else []))
  end.

End Script.

End Forecast.

(** * Proofs *)

(** ** Basic facts *)

Lemma loop_body_step st h : loop_body st h = Ok (step st h).
Proof.
  destruct st as [blocks blk]. unfold loop_body, step, qualifies. simpl.
  destruct (pop h <? 0.4)%float; simpl; [done|].
  rewrite last_lookup.
  destruct blk as [|x blk']; simpl; [done|].
  rewrite Nat.sub_0_r.
  destruct ((x :: blk') !! length blk') as [l|] eqn:E; simpl.
  - by destruct (_ && _).
  - apply lookup_ge_None in E. simpl in E. lia.
Qed.

Lemma for_loop_foldl l st : for_loop l st = Ok (foldl step st l).
Proof.
  revert st. induction l as [|h l IH]; intros st; simpl; [done|].
  rewrite loop_body_step. simpl. apply IH.
Qed.

Lemma step_skip st h : qualifies h = false → step st h = st.
Proof. unfold step. by intros ->. Qed.

Lemma foldl_step_filter l st :
  foldl step st (filter (λ h, qualifies h = true) l) = foldl step st l.
Proof.
  revert st. induction l as [|h l IH]; intros st; [done|].
  rewrite filter_cons. destruct (decide (qualifies h = true)) as [E|E]; simpl.
  - apply IH.
  - rewrite IH. f_equal. symmetry. apply step_skip. by destruct (qualifies h).
Qed.

(** ** Neighbour relations on lists *)

Section Adjacent.
Context {A : Type} (R : A → A → Prop).

Lemma adjacent_nil : adjacent R [].
Proof. intros i a b Ha. by rewrite lookup_nil in Ha. Qed.

Lemma adjacent_singleton x : adjacent R [x].
Proof. intros [|i] a b Ha Hb; simpl in *; by rewrite ?lookup_nil in *. Qed.

Lemma adjacent_snoc l x :
  adjacent R l → (∀ y, last l = Some y → R y x) → adjacent R (l ++ [x]).
Proof.
  intros Hl Hx i a b Ha Hb.
  assert (S i < length (l ++ [x]))%nat as Hlen by (by eapply lookup_lt_Some).
  rewrite length_app in Hlen. simpl in Hlen.
  destruct (decide (S i < length l)%nat) as [Hi|Hi].
  - rewrite lookup_app_l in Ha by lia. rewrite lookup_app_l in Hb by lia.
    by eapply Hl.
  - assert (S i = length l) as Hi' by lia.
    rewrite lookup_app_l in Ha by lia.
    rewrite lookup_app_r in Hb by lia.
    replace (S i - length l)%nat with 0%nat in Hb by lia.
    simpl in Hb. injection Hb as <-.
    apply Hx. rewrite last_lookup, <- Hi'. exact Ha.
Qed.

Lemma adjacent_app_l l1 l2 : adjacent R (l1 ++ l2) → adjacent R l1.
Proof.
  intros H i a b Ha Hb. apply (H i).
  - rewrite lookup_app_l; [done|]. by eapply lookup_lt_Some.
  - rewrite lookup_app_l; [done|]. by eapply lookup_lt_Some.
Qed.

Lemma adjacent_snoc_last l x y :
  adjacent R (l ++ [x]) → last l = Some y → R y x.
Proof.
  intros H Hy. rewrite last_lookup in Hy.
  assert (0 < length l)%nat as Hpos.
  { destruct l; simpl in *; [done|lia]. }
  apply (H (pred (length l))).
  - rewrite lookup_app_l; [done|lia].
  - replace (S (pred (length l))) with (length l) by lia.
    rewrite lookup_app_r by lia. by rewrite Nat.sub_diag.
Qed.

Lemma adjacent_cons_inv x l : adjacent R (x :: l) → adjacent R l.
Proof. intros H i a b Ha Hb. by apply (H (S i)). Qed.

Lemma adjacent_middle l1 a b l2 : adjacent R (l1 ++ a :: b :: l2) → R a b.
Proof.
  intros H. apply (H (length l1)).
  - by rewrite lookup_app_r, Nat.sub_diag by lia.
  - rewrite lookup_app_r by lia.
    by replace (S (length l1) - length l1)%nat with 1%nat by lia.
Qed.
End Adjacent.

(** ** What the loop state holds *)

Lemma flat_step st h : qualifies h = true → flat (step st h) = flat st ++ [h].
Proof.
  intros Hq. destruct st as [blocks blk]. unfold step, flat. rewrite Hq. simpl.
  destruct (last blk) as [l|] eqn:El.
  - destruct (_ && _); simpl.
    + by rewrite app_assoc.
    + rewrite concat_app. simpl. by rewrite app_nil_r, <- app_assoc.
  - apply last_None in El. subst blk. by rewrite !app_nil_r.
Qed.

Lemma flat_foldl l st : flat (foldl step st l) = flat st ++ qualifying l.
Proof.
  revert st. induction l as [|h l IH]; intros st; simpl.
  - by rewrite app_nil_r.
  - unfold qualifying. rewrite filter_cons.
    destruct (decide (qualifies h = true)) as [E|E].
    + rewrite IH, flat_step by done. by rewrite <- app_assoc.
    + rewrite step_skip by (by destruct (qualifies h)). apply IH.
Qed.

Lemma concat_close st : concat (close st) = flat st.
Proof.
  destruct st as [blocks blk]. unfold close, flat. simpl.
  destruct blk as [|x blk']; simpl.
  - by rewrite app_nil_r.
  - by rewrite concat_app; simpl; rewrite app_nil_r.
Qed.

(** The windows partition the qualifying subsequence, in order. *)
Lemma concat_windows l : concat (windows l) = qualifying l.
Proof. unfold windows. by rewrite concat_close, flat_foldl. Qed.

Lemma loop_inv_init : loop_inv ([], []).
Proof.
  split; simpl; auto using adjacent_nil.
Qed.

Lemma close_nonempty blocks (blk : block) :
  blk ≠ [] → close (blocks, blk) = blocks ++ [blk].
Proof. unfold close. simpl. destruct blk; [done|]. by simpl. Qed.

Lemma forced_break_snoc (w blk : block) h :
  blk ≠ [] → forced_break w blk → forced_break w (blk ++ [h]).
Proof.
  intros Hne [Hlen|(a & b & Ha & Hb & Hgap)]; [by left|right].
  exists a, b. split_and!; [done| |done].
  destruct blk; [done|]. exact Hb.
Qed.

Lemma loop_inv_step st h : loop_inv st → loop_inv (step st h).
Proof.
  intros [Hsz Hop Hst Hgap Hbr]. destruct st as [blocks blk]. simpl in *.
  unfold step. destruct (qualifies h); [|by split]. simpl.
  destruct (last blk) as [l|] eqn:El.
  - assert (blk ≠ []) as Hne by (by intros ->).
    assert (1 ≤ length blk)%nat as Hpos.
    { destruct blk; simpl; [done|lia]. }
    rewrite close_nonempty in Hbr by done.
    apply Forall_cons in Hgap as [Hgb Hgs].
    destruct (_ && _) eqn:Ec.
    + apply andb_true_iff in Ec as [Eg Es].
      apply Z.leb_le in Eg. apply Nat.ltb_lt in Es.
      split; simpl.
      * done.
      * rewrite length_app. simpl. lia.
      * by intros ?%app_nil_r_inv.
      * apply Forall_cons. split; [|done].
        apply adjacent_snoc; [done|].
        intros y Hy. rewrite El in Hy. by injection Hy as <-.
      * rewrite close_nonempty by (by intros ?%app_nil_r_inv).
        apply adjacent_snoc; [by eapply adjacent_app_l|].
        intros y Hy. apply forced_break_snoc; [done|].
        by eapply adjacent_snoc_last.
    + split; simpl.
      * apply Forall_app. split; [done|]. apply Forall_singleton. lia.
      * lia.
      * done.
      * apply Forall_cons. split; [apply adjacent_singleton|].
        apply Forall_app. split; [done|]. by apply Forall_singleton.
      * rewrite close_nonempty by done.
        apply adjacent_snoc; [done|].
        intros y Hy. rewrite last_snoc in Hy. injection Hy as <-.
        apply andb_false_iff in Ec as [Eg|Es].
        -- right. exists l, h. apply Z.leb_gt in Eg. split_and!; [done|done|lia].
        -- left. apply Nat.ltb_ge in Es. lia.
  - apply last_None in El. subst blk. rewrite (Hst eq_refl).
    split; simpl; try done; try lia.
    repeat constructor. apply adjacent_singleton.
Qed.

Lemma loop_inv_foldl l st : loop_inv st → loop_inv (foldl step st l).
Proof.
  revert st. induction l as [|h l IH]; intros st Hst; simpl; [done|].
  by apply IH, loop_inv_step.
Qed.

(** ** The windows before the sort *)

Lemma windows_sizes l : Forall (λ w : block, (1 ≤ length w ≤ 4)%nat) (windows l).
Proof.
  unfold windows.
  destruct (loop_inv_foldl l _ loop_inv_init) as [Hsz Hop _ _ _].
  destruct (foldl step ([], []) l) as [blocks blk]. unfold close. simpl in *.
  destruct (0 <? length blk)%nat eqn:E; [|done].
  apply Nat.ltb_lt in E. apply Forall_app. split; [done|].
  apply Forall_singleton. lia.
Qed.

Lemma windows_gaps l : Forall (adjacent within_gap) (windows l).
Proof.
  unfold windows.
  destruct (loop_inv_foldl l _ loop_inv_init) as [_ _ _ Hgap _].
  destruct (foldl step ([], []) l) as [blocks blk]. unfold close. simpl in *.
  apply Forall_cons in Hgap as [Hgb Hgs].
  destruct (0 <? length blk)%nat; [|done].
  apply Forall_app. split; [done|]. by apply Forall_singleton.
Qed.

Lemma windows_breaks l : adjacent forced_break (windows l).
Proof. apply (loop_inv_foldl l _ loop_inv_init). Qed.

(** ** Timestamp order *)

Lemma ordered_cons R x l :
  ordered R (x :: l) ↔ Forall (λ y, R (dt x) (dt y)) l ∧ ordered R l.
Proof.
  split.
  - intros H. split.
    + apply Forall_lookup. intros i y Hy. apply (H 0%nat (S i)); [lia|done..].
    + intros i j a b Hij Ha Hb. apply (H (S i) (S j)); [lia|done..].
  - intros [Hx Hl] i j a b Hij Ha Hb.
    destruct j as [|j]; [lia|]. destruct i as [|i]; simpl in *.
    + injection Ha as <-. by eapply (Forall_lookup_1 _ _ _ _ Hx).
    + apply (Hl i j); [lia|done..].
Qed.

Lemma ordered_nil R : ordered R [].
Proof. intros i j a b _ Ha. by rewrite lookup_nil in Ha. Qed.

Lemma ordered_app_r R l1 l2 : ordered R (l1 ++ l2) → ordered R l2.
Proof.
  induction l1 as [|x l1 IH]; simpl; [done|].
  intros [_ H]%ordered_cons. by apply IH.
Qed.

Lemma ordered_filter R (P : sample → Prop) `{!∀ x, Decision (P x)} l :
  ordered R l → ordered R (filter P l).
Proof.
  induction l as [|x l IH]; [done|].
  intros [Hx Hl]%ordered_cons. rewrite filter_cons.
  destruct (decide (P x)); [|by apply IH].
  apply ordered_cons. split; [|by apply IH].
  apply Forall_forall. intros y [_ Hy]%list_elem_of_filter.
  by eapply (proj1 (Forall_forall _ _) Hx).
Qed.

Lemma ordered_NoDup l : ordered Z.lt l → NoDup l.
Proof.
  induction l as [|x l IH]; [constructor|].
  intros [Hx Hl]%ordered_cons. constructor; [|by apply IH].
  intros Hin. pose proof (proj1 (Forall_forall _ _) Hx x Hin) as Hlt.
  simpl in Hlt. lia.
Qed.

(** Windows that partition an ordered list start in that order. *)
Lemma ordered_starts R (ws : list block) :
  Forall (λ w : block, w ≠ []) ws → ordered R (concat ws) →
  ∀ i j w1 w2, (i < j)%nat → ws !! i = Some w1 → ws !! j = Some w2 →
               starts R w1 w2.
Proof.
  induction ws as [|w ws IH]; intros Hne Hord i j w1 w2 Hij H1 H2.
  { by rewrite lookup_nil in H1. }
  apply Forall_cons in Hne as [Hw Hws].
  destruct j as [|j]; [lia|]. simpl in H2.
  destruct i as [|i]; simpl in H1.
  - injection H1 as <-. destruct w as [|a w']; [done|].
    assert (w2 ≠ []) as Hw2 by (by eapply (Forall_lookup_1 _ _ _ _ Hws)).
    destruct w2 as [|b w2']; [done|].
    exists a, b. split_and!; [done..|].
    simpl in Hord. apply ordered_cons in Hord as [Ha _].
    apply (proj1 (Forall_forall _ _) Ha).
    apply elem_of_app. right. apply list_elem_of_In, in_concat.
    exists (b :: w2'). split; [|by left].
    apply list_elem_of_In, list_elem_of_lookup. by exists j.
  - apply (IH Hws) with i j; [|lia|done..].
    simpl in Hord. by eapply ordered_app_r.
Qed.

(** ** The final sort *)

Lemma compareBlocks_cons a w1 b w2 :
  compareBlocks (a :: w1) (b :: w2) = Ok (dt a - dt b).
Proof. reflexivity. Qed.

Lemma sort_insert_perm (x : block) (l : list block) :
  x ≠ [] → Forall (λ w : block, w ≠ []) l →
  ∃ r, sort_insert compareBlocks x l = Ok r ∧ r ≡ₚ x :: l.
Proof.
  intros Hx. induction l as [|y l IH]; intros Hl; simpl.
  { by exists [x]. }
  apply Forall_cons in Hl as [Hy Hl].
  destruct x as [|a x']; [done|]. destruct y as [|b y']; [done|].
  rewrite compareBlocks_cons. simpl.
  destruct (dt a - dt b <=? 0).
  - by eexists.
  - destruct (IH Hl) as (r & -> & Hr). simpl.
    eexists. split; [done|]. rewrite Hr. apply Permutation_swap.
Qed.

(** The sort never throws on non-empty windows and only reorders them. *)
Lemma Array_sort_perm (l : list block) :
  Forall (λ w : block, w ≠ []) l →
  ∃ r, Array_sort compareBlocks l = Ok r ∧ r ≡ₚ l.
Proof.
  induction l as [|x l IH]; intros Hl; simpl.
  { by exists []. }
  apply Forall_cons in Hl as [Hx Hl].
  destruct (IH Hl) as (s & -> & Hs). simpl.
  destruct (sort_insert_perm x s Hx) as (r & Hr & Hp).
  { by rewrite Hs. }
  exists r. split; [done|]. by rewrite Hp, Hs.
Qed.

(** On windows that already start in ascending order the sort changes
    nothing. *)
Lemma Array_sort_sorted (l : list block) :
  adjacent (starts Z.le) l → Array_sort compareBlocks l = Ok l.
Proof.
  induction l as [|x l IH]; intros Hadj; simpl; [done|].
  rewrite IH by (by eapply adjacent_cons_inv). simpl.
  destruct l as [|y l]; simpl; [done|].
  destruct (Hadj 0%nat x y eq_refl eq_refl) as (a & b & Ha & Hb & Hab).
  destruct x as [|a' x']; [done|]. destruct y as [|b' y']; [done|].
  simpl in Ha, Hb. injection Ha as ->. injection Hb as ->.
  rewrite compareBlocks_cons. simpl.
  destruct (dt a - dt b <=? 0) eqn:E; [done|].
  apply Z.leb_gt in E. lia.
Qed.

Lemma windows_nonempty l : Forall (λ w : block, w ≠ []) (windows l).
Proof.
  eapply Forall_impl; [apply windows_sizes|].
  intros w Hw ->. simpl in Hw. lia.
Qed.

Lemma windows_starts R l :
  ordered R l →
  ∀ i j w1 w2, (i < j)%nat → windows l !! i = Some w1 →
               windows l !! j = Some w2 → starts R w1 w2.
Proof.
  intros Hord. apply ordered_starts; [apply windows_nonempty|].
  rewrite concat_windows. by apply ordered_filter.
Qed.

(** ** [groupByTimeSlots] returns *)

Lemma groupByTimeSlots_unfold l :
  groupByTimeSlots l = Array_sort compareBlocks (windows l).
Proof.
  unfold groupByTimeSlots, windows, close. rewrite for_loop_foldl. simpl.
  by destruct (foldl step ([], []) l) as [blocks blk].
Qed.

(** For every input the call returns a reordering of [windows]. *)
Lemma groupByTimeSlots_perm l :
  ∃ ws, groupByTimeSlots l = Ok ws ∧ ws ≡ₚ windows l.
Proof.
  rewrite groupByTimeSlots_unfold.
  apply Array_sort_perm, windows_nonempty.
Qed.

(** For chronological input the sort is the identity. *)
Lemma groupByTimeSlots_chronological l :
  chronological l → groupByTimeSlots l = Ok (windows l).
Proof.
  intros Hl. rewrite groupByTimeSlots_unfold.
  apply Array_sort_sorted. intros i a b Ha Hb.
  by apply (windows_starts Z.le l Hl i (S i)); [lia|..].
Qed.

Lemma windows_qualifying l : windows (qualifying l) = windows l.
Proof. unfold windows, qualifying. by rewrite foldl_step_filter. Qed.

Lemma groupByTimeSlots_qualifying l :
  groupByTimeSlots l = groupByTimeSlots (qualifying l).
Proof. by rewrite !groupByTimeSlots_unfold, windows_qualifying. Qed.

Lemma qualifying_qualifies l :
  Forall (λ h, (pop h <? 0.4)%float = false) (qualifying l).
Proof.
  apply Forall_forall. intros h [Hq _]%list_elem_of_filter.
  unfold qualifies in Hq. by destruct (pop h <? 0.4)%float.
Qed.

Lemma ordered_impl (R1 R2 : Z → Z → Prop) l :
  (∀ x y, R1 x y → R2 x y) → ordered R1 l → ordered R2 l.
Proof. intros HR H i j a b Hij Ha Hb. by eapply HR, H. Qed.

Lemma step_scan_step st h :
  loop_inv st → qualifies h = true →
  open_window (step st h) = Spec.scan_step (open_window st) h.
Proof.
  intros [_ Hop _ _ _] Hq. destruct st as [blocks blk].
  unfold step, open_window, Spec.scan_step. rewrite Hq. simpl in *.
  destruct blk as [|x blk'].
  { simpl. by rewrite app_nil_r. }
  destruct (last (x :: blk')) as [l|] eqn:El.
  2:{ by apply last_None in El. }
  remember (x :: blk') as blk eqn:Eb.
  unfold Spec.breaks. rewrite El.
  assert ((dt h - dt l <=? 7200) && (length blk <? 4)%nat
          = negb ((7200 <? dt h - dt l) || (length blk =? 4)%nat)) as ->.
  { rewrite negb_orb, <- Z.leb_antisym. f_equal.
    destruct (Nat.ltb_spec (length blk) 4), (Nat.eqb_spec (length blk) 4);
      simpl; lia || done. }
  destruct (_ || _); simpl; [done|].
  subst blk. by destruct blk'.
Qed.

Lemma finish_open_window st : Spec.finish (open_window st) = close st.
Proof. destruct st as [blocks [|x blk]]; done. Qed.

Lemma foldl_scan_step l st :
  loop_inv st → Forall (λ h, qualifies h = true) l →
  open_window (foldl step st l) = foldl Spec.scan_step (open_window st) l.
Proof.
  revert st. induction l as [|h l IH]; intros st Hst Hl; simpl; [done|].
  apply Forall_cons in Hl as [Hh Hl].
  rewrite IH by (by try apply loop_inv_step). by rewrite step_scan_step.
Qed.

Lemma windows_spec l : windows l = Spec.groupIntoWindows l.
Proof.
  unfold Spec.groupIntoWindows.
  rewrite <- (foldl_scan_step _ ([], [])); [| apply loop_inv_init |].
  - rewrite finish_open_window. symmetry. apply windows_qualifying.
  - apply Forall_forall. by intros h [Hq _]%list_elem_of_filter.
Qed.

Lemma example_day_strict : strictly_chronological example_day.
Proof.
  unfold strictly_chronological, example_day.
  repeat (apply ordered_cons; split; [repeat constructor; simpl; lia|]).
  apply ordered_nil.
Defined.

Lemma example_day_chronological : chronological example_day.
Proof.
  apply (ordered_impl Z.lt Z.le); [intros; lia|apply example_day_strict].
Defined.

(** C1. For samples in non-decreasing timestamp order, [groupByTimeSlots]
    returns what the single left-to-right scan of the specification
    returns: over the qualifying samples (pop >= 0.4) a new window starts
    when no window is open, when the gap to the last member of the open
    window exceeds 7200 seconds, or when the open window holds 4 samples;
    on a break the open window is appended and a new one opened with the
    current sample only; at the end a non-empty open window is appended. *)
Theorem groupByTimeSlots_scan (hourlyData : list sample) :
  chronological hourlyData →
  groupByTimeSlots hourlyData = Ok (Spec.groupIntoWindows hourlyData).
Proof.
  intros Hl. rewrite groupByTimeSlots_chronological by done.
  by rewrite windows_spec.
Qed.

Lemma groupByTimeSlots_scan_witness :
  chronological example_day ∧
  groupByTimeSlots example_day = Ok (Spec.groupIntoWindows example_day).
Proof.
  split; [apply example_day_chronological|].
  apply (groupByTimeSlots_scan example_day), example_day_chronological.
Defined.

(** Without the order of the input the final sort does reorder: on
    descending timestamps the first window is full after four samples,
    the fifth opens a window of its own, and the sort moves that window
    to the front. *)
Example groupByTimeSlots_descending :
  let hourlyData :=
    [Sample 50000 0.5; Sample 40000 0.5; Sample 30000 0.5; Sample 20000 0.5;
     Sample 0 0.5] in
  groupByTimeSlots hourlyData
  = Ok [[Sample 0 0.5];
        [Sample 50000 0.5; Sample 40000 0.5; Sample 30000 0.5;
         Sample 20000 0.5]] ∧
  Spec.groupIntoWindows hourlyData
  = [[Sample 50000 0.5; Sample 40000 0.5; Sample 30000 0.5;
      Sample 20000 0.5];
     [Sample 0 0.5]].
Proof. by split. Qed.

(** C2. Below-threshold samples are invisible. For every input the call
    returns windows none of which contains a sample with [pop < 0.4]; a
    sample whose [pop] equals the threshold is in some returned window;
    and the result is the result on the input with every below-threshold
    sample deleted. *)
Theorem below_threshold_invisible (hourlyData : list sample) :
  (∃ ws, groupByTimeSlots hourlyData = Ok ws ∧
         (∀ w h, w ∈ ws → h ∈ w → (pop h <? 0.4)%float = false) ∧
         (∀ h, h ∈ hourlyData → pop h = 0.4%float → ∃ w, w ∈ ws ∧ h ∈ w)) ∧
  groupByTimeSlots hourlyData
  = groupByTimeSlots (filter (λ h, qualifies h = true) hourlyData).
Proof.
  split; [|apply groupByTimeSlots_qualifying].
  destruct (groupByTimeSlots_perm hourlyData) as (ws & Hws & Hp).
  exists ws. split; [done|].
  assert (∀ h, h ∈ concat ws ↔ h ∈ qualifying hourlyData) as Hmem.
  { intros h. rewrite <- concat_windows.
    rewrite !list_elem_of_In, !in_concat.
    split; intros (w & Hw & Hh); exists w; split; try done;
      apply list_elem_of_In; apply list_elem_of_In in Hw.
    - by rewrite <- Hp.
    - by rewrite Hp. }
  split.
  - intros w h Hw Hh.
    apply (proj1 (Forall_forall _ _) (qualifying_qualifies hourlyData)).
    apply Hmem, list_elem_of_In, in_concat.
    exists w. by rewrite <- !list_elem_of_In.
  - intros h Hh Hpop.
    assert (h ∈ concat ws) as Hin.
    { apply Hmem, list_elem_of_filter. split; [|done].
      unfold qualifies. by rewrite Hpop. }
    apply list_elem_of_In, in_concat in Hin as (w & Hw & Hhw).
    exists w. by rewrite !list_elem_of_In.
Qed.

Lemma below_threshold_invisible_witness :
  ∃ ws, groupByTimeSlots [Sample 0 0.3; Sample 3600 0.4] = Ok ws ∧
        ∃ w, w ∈ ws ∧ Sample 3600 0.4 ∈ w.
Proof.
  destruct (below_threshold_invisible [Sample 0 0.3; Sample 3600 0.4])
    as [(ws & Hws & _ & Heq) _].
  exists ws. split; [exact Hws|].
  apply Heq; [|reflexivity].
  apply list_elem_of_In. right. left. reflexivity.
Defined.

(** C3. For every input, every returned window has between 1 and 4
    members. *)
Theorem window_sizes (hourlyData : list sample) :
  ∃ ws, groupByTimeSlots hourlyData = Ok ws ∧
        ∀ w, w ∈ ws → (1 ≤ length w ≤ 4)%nat.
Proof.
  destruct (groupByTimeSlots_perm hourlyData) as (ws & Hws & Hp).
  exists ws. split; [done|]. apply Forall_forall.
  rewrite Hp. apply windows_sizes.
Qed.

(** C4. For input in non-decreasing timestamp order, consecutive members
    of every returned window are at most 7200 seconds apart. *)
Theorem window_gaps (hourlyData : list sample) :
  chronological hourlyData →
  ∃ ws, groupByTimeSlots hourlyData = Ok ws ∧
        ∀ w i a b, w ∈ ws → w !! i = Some a → w !! S i = Some b →
                   dt b - dt a ≤ 7200.
Proof.
  intros Hl. exists (windows hourlyData).
  split; [by apply groupByTimeSlots_chronological|].
  intros w i a b Hw.
  apply (proj1 (Forall_forall _ _) (windows_gaps hourlyData) w Hw).
Qed.

Lemma window_gaps_witness :
  chronological example_day ∧
  ∃ ws, groupByTimeSlots example_day = Ok ws ∧
        ∀ w i a b, w ∈ ws → w !! i = Some a → w !! S i = Some b →
                   dt b - dt a ≤ 7200.
Proof.
  split; [apply example_day_chronological|].
  apply (window_gaps example_day), example_day_chronological.
Defined.

Lemma NoDup_concat_disjoint {A : Type} (ws : list (list A)) :
  NoDup (concat ws) →
  ∀ i j w1 w2 x, ws !! i = Some w1 → ws !! j = Some w2 →
                 x ∈ w1 → x ∈ w2 → i = j.
Proof.
  induction ws as [|w ws IH]; intros Hnd i j w1 w2 x H1 H2 Hx1 Hx2.
  { by rewrite lookup_nil in H1. }
  simpl in Hnd. apply NoDup_app in Hnd as (_ & Hdis & Hnd).
  assert (∀ k w', ws !! k = Some w' → x ∈ w' → x ∈ concat ws) as Hin.
  { intros k w' Hk Hw'. apply list_elem_of_In, in_concat. exists w'.
    rewrite <- !list_elem_of_In. split; [|done].
    apply list_elem_of_lookup. by exists k. }
  destruct i as [|i], j as [|j]; simpl in *.
  - done.
  - injection H1 as <-. destruct (Hdis x Hx1). by eapply Hin.
  - injection H2 as <-. destruct (Hdis x Hx2). by eapply Hin.
  - f_equal. by eapply IH.
Qed.

(** C5. For input in increasing timestamp order (sorted, timestamps
    unique) the returned windows start at strictly ascending timestamps,
    no sample is in two windows, and the windows concatenated in output
    order are the qualifying subsequence of the input. *)
Theorem windows_partition (hourlyData : list sample) :
  strictly_chronological hourlyData →
  ∃ ws, groupByTimeSlots hourlyData = Ok ws ∧
        (∀ i j w1 w2, (i < j)%nat → ws !! i = Some w1 → ws !! j = Some w2 →
           ∃ a b, head w1 = Some a ∧ head w2 = Some b ∧ dt a < dt b) ∧
        (∀ i j w1 w2 h, ws !! i = Some w1 → ws !! j = Some w2 →
           h ∈ w1 → h ∈ w2 → i = j) ∧
        concat ws = filter (λ h, qualifies h = true) hourlyData.
Proof.
  intros Hl. exists (windows hourlyData). split_and!.
  - apply groupByTimeSlots_chronological.
    apply (ordered_impl Z.lt Z.le); [intros; lia|done].
  - apply (windows_starts Z.lt hourlyData Hl).
  - apply NoDup_concat_disjoint. rewrite concat_windows.
    by apply ordered_NoDup, ordered_filter.
  - apply concat_windows.
Qed.

Lemma windows_partition_witness :
  strictly_chronological example_day ∧
  ∃ ws, groupByTimeSlots example_day = Ok ws ∧
        (∀ i j w1 w2, (i < j)%nat → ws !! i = Some w1 → ws !! j = Some w2 →
           ∃ a b, head w1 = Some a ∧ head w2 = Some b ∧ dt a < dt b) ∧
        (∀ i j w1 w2 h, ws !! i = Some w1 → ws !! j = Some w2 →
           h ∈ w1 → h ∈ w2 → i = j) ∧
        concat ws = filter (λ h, qualifies h = true) example_day.
Proof.
  split; [apply example_day_strict|].
  apply (windows_partition example_day), example_day_strict.
Defined.

Lemma concat_lookup_split {A : Type} (ws : list (list A)) i a :
  concat ws !! i = Some a →
  ∃ ws1 u v ws2, ws = ws1 ++ (u ++ a :: v) :: ws2 ∧
                 length (concat ws1 ++ u) = i.
Proof.
  revert i. induction ws as [|w ws IH]; intros i Hi; simpl in Hi.
  { by rewrite lookup_nil in Hi. }
  destruct (decide (i < length w)%nat) as [Hlt|Hge].
  - rewrite lookup_app_l in Hi by done.
    exists [], (take i w), (drop (S i) w), ws. split.
    + simpl. by rewrite take_drop_middle.
    + simpl. rewrite length_take. lia.
  - rewrite lookup_app_r in Hi by lia.
    destruct (IH _ Hi) as (ws1 & u & v & ws2 & -> & Hlen).
    exists (w :: ws1), u, v, ws2. split; [done|].
    simpl. rewrite <- app_assoc, length_app. lia.
Qed.

(** C8. Windows are greedy. For input in non-decreasing timestamp order
    the windows, one after the other, are the qualifying samples in their
    order, so every qualifying sample is in a window. If [a] and [b] are
    neighbours in the qualifying subsequence ([a] at index [i], [b] at
    [i + 1]) and at most 7200 seconds apart, then [a] sits in a window
    [u ++ a :: v] at the place that corresponds to [i], and unless [a] is
    the 4th member of that window ([u] has 3 members) [b] is the next
    member of the same window. The same holds of every place of every
    window; and wherever one window ends and the next begins, the earlier
    one is full or the gap to the next sample exceeds 7200 seconds. *)
Theorem windows_greedy (hourlyData : list sample) :
  chronological hourlyData →
  ∃ ws, groupByTimeSlots hourlyData = Ok ws ∧
        concat ws = qualifying hourlyData ∧
        (∀ i a b,
           qualifying hourlyData !! i = Some a →
           qualifying hourlyData !! S i = Some b →
           dt b - dt a ≤ 7200 →
           ∃ ws1 u v ws2,
             ws = ws1 ++ (u ++ a :: v) :: ws2 ∧
             length (concat ws1 ++ u) = i ∧
             (length u ≠ 3%nat → ∃ v', v = b :: v')) ∧
        (∀ ws1 u a v ws2 b,
           ws = ws1 ++ (u ++ a :: v) :: ws2 →
           qualifying hourlyData !! S (length (concat ws1 ++ u)) = Some b →
           dt b - dt a ≤ 7200 →
           length u ≠ 3%nat →
           ∃ v', v = b :: v') ∧
        (∀ ws1 w1 w2 ws2,
           ws = ws1 ++ w1 :: w2 :: ws2 →
           length w1 = 4%nat ∨
           ∃ a b, last w1 = Some a ∧ head w2 = Some b ∧ 7200 < dt b - dt a).
Proof.
  intros Hl. exists (windows hourlyData).
  split; [by apply groupByTimeSlots_chronological|].
  split; [apply concat_windows|].
  assert (∀ ws1 w1 w2 ws2,
            windows hourlyData = ws1 ++ w1 :: w2 :: ws2 →
            forced_break w1 w2) as Hbreak.
  { intros ws1 w1 w2 ws2 E. apply (adjacent_middle _ ws1 w1 w2 ws2).
    rewrite <- E. apply windows_breaks. }
  assert (∀ ws1 u a v ws2 b,
            windows hourlyData = ws1 ++ (u ++ a :: v) :: ws2 →
            qualifying hourlyData !! S (length (concat ws1 ++ u)) = Some b →
            dt b - dt a ≤ 7200 →
            length u ≠ 3%nat →
            ∃ v', v = b :: v') as Hnext.
  { intros ws1 u a v ws2 b E Hb Hgap Hu.
    rewrite <- concat_windows, E in Hb.
    rewrite concat_app in Hb. simpl in Hb.
    rewrite <- !app_assoc, (app_assoc (concat ws1) u) in Hb.
    rewrite lookup_app_r in Hb by lia.
    replace (S (length (concat ws1 ++ u)) - length (concat ws1 ++ u))%nat
      with 1%nat in Hb by lia.
    simpl in Hb.
    destruct v as [|b' v'].
    2:{ simpl in Hb. injection Hb as ->. by exists v'. }
    exfalso. simpl in Hb.
    destruct ws2 as [|w2 ws2']; [done|].
    assert (w2 ≠ []) as Hw2.
    { pose proof (windows_nonempty hourlyData) as Hne. rewrite E in Hne.
      apply Forall_app in Hne as [_ Hne].
      apply Forall_cons in Hne as [_ Hne].
      by apply Forall_cons in Hne as [Hne _]. }
    destruct w2 as [|b' w2']; [done|]. simpl in Hb. injection Hb as ->.
    destruct (Hbreak _ _ _ _ E) as [Hlen|(a' & b' & Ha' & Hb' & Hfar)].
    - rewrite length_app in Hlen. simpl in Hlen. lia.
    - rewrite last_snoc in Ha'. simpl in Hb'.
      injection Ha' as <-. injection Hb' as <-. lia. }
  split_and!; [|exact Hnext|exact Hbreak].
  intros i a b Ha Hb Hgap.
  rewrite <- concat_windows in Ha.
  destruct (concat_lookup_split _ _ _ Ha) as (ws1 & u & v & ws2 & E & Hi).
  exists ws1, u, v, ws2. split_and!; [done..|].
  intros Hu. apply (Hnext ws1 u a v ws2 b E); [by rewrite Hi|done..].
Qed.

Lemma example_run_chronological : chronological example_run.
Proof.
  unfold chronological, example_run.
  repeat (apply ordered_cons; split; [repeat constructor; simpl; lia|]).
  apply ordered_nil.
Defined.

Example groupByTimeSlots_example_run :
  groupByTimeSlots example_run
  = Ok [[Sample 0 0.5; Sample 3600 0.5; Sample 7200 0.5; Sample 10800 0.5];
        [Sample 14400 0.5]].
Proof. vm_compute. reflexivity. Qed.

Lemma windows_greedy_witness :
  chronological example_run ∧
  ∃ ws ws1 u v' ws2 w1 w2,
    groupByTimeSlots example_run = Ok ws ∧
    concat ws = qualifying example_run ∧
    ws = ws1 ++ (u ++ Sample 3600 0.5 :: Sample 7200 0.5 :: v') :: ws2 ∧
    length (concat ws1 ++ u) = 1%nat ∧
    ws = [w1; w2] ∧ length w1 = 4%nat.
Proof.
  split; [apply example_run_chronological|].
  destruct (windows_greedy example_run example_run_chronological)
    as (ws & Hws & Hcat & Hpair & _ & Hbreak).
  destruct (Hpair 1%nat (Sample 3600 0.5) (Sample 7200 0.5)
              eq_refl eq_refl ltac:(simpl; lia))
    as (ws1 & u & v & ws2 & E & Hlen & Hv).
  destruct Hv as [v' ->].
  { rewrite length_app in Hlen. lia. }
  pose proof Hws as Hrun. rewrite groupByTimeSlots_example_run in Hrun.
  injection Hrun as Hrun.
  exists ws, ws1, u, v', ws2. eexists. eexists.
  split_and!; [exact Hws|exact Hcat|exact E|exact Hlen|symmetry; exact Hrun|].
  destruct (Hbreak [] _ _ [] (eq_sym Hrun))
    as [Hfull|(a & b & Ha & Hb & Hfar)]; [exact Hfull|].
  injection Ha as <-. injection Hb as <-. simpl in Hfar. lia.
Defined.

Lemma qualifying_none l :
  Forall (λ h, (pop h <? 0.4)%float = true) l → qualifying l = [].
Proof.
  induction 1 as [|h l Hh _ IH]; [done|].
  unfold qualifying in *. rewrite filter_cons.
  destruct (decide (qualifies h = true)) as [E|E]; [|done].
  unfold qualifies in E. by rewrite Hh in E.
Qed.

(** C9. An empty input and an input whose samples are all below the
    threshold give the empty sequence; on those inputs and on an input
    with a single qualifying sample the call returns normally. *)
Theorem groupByTimeSlots_no_rain :
  groupByTimeSlots [] = Ok [] ∧
  (∀ hourlyData,
     Forall (λ h, (pop h <? 0.4)%float = true) hourlyData →
     groupByTimeSlots hourlyData = Ok []) ∧
  (∀ h, (pop h <? 0.4)%float = false → groupByTimeSlots [h] = Ok [[h]]) ∧
  (∀ hourlyData h,
     filter (λ h, qualifies h = true) hourlyData = [h] →
     groupByTimeSlots hourlyData = Ok [[h]]).
Proof.
  assert (∀ h, (pop h <? 0.4)%float = false → groupByTimeSlots [h] = Ok [[h]])
    as Hone.
  { intros h Hq. unfold groupByTimeSlots. simpl. by rewrite Hq. }
  split_and!; [done| |done|].
  - intros l Hl. by rewrite groupByTimeSlots_qualifying, qualifying_none.
  - intros l h Hl. rewrite groupByTimeSlots_qualifying.
    unfold qualifying. rewrite Hl. apply Hone.
    assert (h ∈ filter (λ h, qualifies h = true) l) as Hin.
    { rewrite Hl. by left. }
    apply list_elem_of_filter in Hin as [Hq _].
    unfold qualifies in Hq. by destruct (pop h <? 0.4)%float.
Qed.

Lemma groupByTimeSlots_no_rain_witness :
  groupByTimeSlots [Sample 0 0.1; Sample 3600 0.39] = Ok [] ∧
  groupByTimeSlots [Sample 0 0.4] = Ok [[Sample 0 0.4]] ∧
  groupByTimeSlots [Sample 0 0.1; Sample 3600 0.9; Sample 7200 0.2]
  = Ok [[Sample 3600 0.9]].
Proof.
  destruct groupByTimeSlots_no_rain as (_ & Hnone & Hone & Hsingle).
  split_and!.
  - apply Hnone. repeat constructor.
  - apply Hone. reflexivity.
  - apply Hsingle. reflexivity.
Defined.




(** ** The displayed average *)

Lemma get_dt_first (blk : block) a : head blk = Some a → get_dt (blk !! 0%nat) = Ok (dt a).
Proof. rewrite head_lookup. by intros ->. Qed.

Lemma get_dt_last (blk : block) b :
  last blk = Some b → get_dt (blk !! (length blk - 1)%nat) = Ok (dt b).
Proof. rewrite last_lookup, Nat.sub_1_r. by intros ->. Qed.

Lemma formatRainBlock_cons (getTime toString_large : Z → string) a (w : block) :
  ∃ b, last (a :: w) = Some b ∧
       formatRainBlock getTime toString_large (a :: w)
       = Ok (tab +:+ tab +:+ "• " +:+ getTime (dt a) +:+ " to "
             +:+ getTime (dt b) +:+ " – "
             +:+ toString toString_large (avgProb (a :: w)) +:+ "%").
Proof.
  destruct (last (a :: w)) as [b|] eqn:Eb.
  2:{ by apply last_None in Eb. }
  exists b. split; [done|]. unfold formatRainBlock.
  by rewrite (get_dt_first (a :: w) a eq_refl), (get_dt_last _ _ Eb).
Qed.





(** The double written [0.435] lies just below 435/1000, its product with
    100 is the double 43.5, and [Math.round] gives 44: the closest integer
    to the computed double, while the exact product is closer to 43. The
    rounding error of the two operations is part of what is displayed. *)
Remark mean_percent_rounding_error :
  let blk := [Sample 0 0.435] in
  groupByTimeSlots blk = Ok [blk] ∧
  avgProb blk = RInteger 44 ∧
  (∃ w, exact (mean_percent blk) = Some w ∧ (w == 87 # 2)%Q) ∧
  (∃ v, exact_mean_percent blk = Some v ∧ (v < 87 # 2)%Q ∧ nearest v 43).
Proof.
  split_and!; [reflexivity..| |].
  - eexists. split; reflexivity.
  - eexists. split; [reflexivity|]. split; [reflexivity|].
    unfold nearest. by vm_compute.
Qed.

(** C7. On timestamps 0, 3600, 7200, 18000 with probabilities 0.5, 0.6,
    0.3, 0.7 the call returns two windows: the samples at 0 and 3600,
    displayed with 55%, and the sample at 18000, displayed with 70%. *)
Theorem specification_example (getTime toString_large : Z → string) :
  let hourlyData :=
    [Sample 0 0.5; Sample 3600 0.6; Sample 7200 0.3; Sample 18000 0.7] in
  groupByTimeSlots hourlyData
  = Ok [[Sample 0 0.5; Sample 3600 0.6]; [Sample 18000 0.7]] ∧
  avgProb [Sample 0 0.5; Sample 3600 0.6] = RInteger 55 ∧
  avgProb [Sample 18000 0.7] = RInteger 70 ∧
  (blocks ← groupByTimeSlots hourlyData;
   formatRainBlocks getTime toString_large blocks)
  = Ok [tab +:+ tab +:+ "• " +:+ getTime 0 +:+ " to " +:+ getTime 3600
        +:+ " – 55%";
        tab +:+ tab +:+ "• " +:+ getTime 18000 +:+ " to " +:+ getTime 18000
        +:+ " – 70%"].
Proof. by split_and!. Qed.

Lemma bind_run {A B : Type} (m : Store.M A) (f : A → Store.M B) σ :
  (m ≫= f) σ
  = match m σ with
    | (Store.Returns a, σ') => f a σ'
    | (Store.Throws, σ') => (Store.Throws, σ')
    | (Store.IllTyped, σ') => (Store.IllTyped, σ')
    | (Store.OutOfFuel, σ') => (Store.OutOfFuel, σ')
    end.
Proof. reflexivity. Qed.

Section Preserves.
Variable σ0 : Store.heap.

Lemma preserves_ret {A : Type} (P : A → Prop) a :
  P a → preserves σ0 P (mret a).
Proof. intros Ha σ Hσ. split; [done|]. by intros a' [= <-]. Qed.

Lemma preserves_bind {A B : Type} (P : A → Prop) (Q : B → Prop)
    (m : Store.M A) (f : A → Store.M B) :
  preserves σ0 P m → (∀ a, P a → preserves σ0 Q (f a)) →
  preserves σ0 Q (m ≫= f).
Proof.
  intros Hm Hf σ Hσ. rewrite bind_run.
  destruct (Hm σ Hσ) as [Hsub Hret].
  destruct (m σ) as [[a| | |] σ1]; simpl in *; try done.
  by apply Hf; [apply Hret|].
Qed.

Lemma preserves_weaken {A : Type} (P Q : A → Prop) (m : Store.M A) :
  (∀ a, P a → Q a) → preserves σ0 P m → preserves σ0 Q m.
Proof.
  intros HPQ Hm σ Hσ. destruct (Hm σ Hσ) as [Hsub Hret].
  split; [done|]. intros a Ha. by apply HPQ, Hret.
Qed.

Lemma preserves_elements {P : list Store.val → Prop} a :
  (∀ l, P l) → preserves σ0 P (Store.elements a).
Proof.
  intros HP σ Hσ. unfold Store.elements.
  destruct a as [|r]; [done|]. by destruct (σ !! r) as [[]|].
Qed.

Lemma preserves_Array_length a :
  preserves σ0 (λ _, True) (Store.Array_length a).
Proof.
  eapply preserves_bind; [by apply (preserves_elements (P := λ _, True))|].
  intros l _. by apply preserves_ret.
Qed.

Lemma preserves_Array_get a i :
  preserves σ0 (λ _, True) (Store.Array_get a i).
Proof.
  eapply preserves_bind; [by apply (preserves_elements (P := λ _, True))|].
  intros l _. by apply preserves_ret.
Qed.

Lemma preserves_field {A : Type} (f : sample → A) o :
  preserves σ0 (λ _, True) (Store.field f o).
Proof.
  intros σ Hσ. unfold Store.field.
  destruct o as [|r]; [done|]. by destruct (σ !! r) as [[]|].
Qed.

Lemma preserves_write r (o : Store.object) σ :
  σ0 !! r = None → σ0 ⊆ σ → σ0 ⊆ <[r := o]> σ.
Proof. intros. by apply insert_subseteq_r. Qed.

Lemma preserves_Array_push a x :
  fresh_in σ0 a → preserves σ0 (λ _, True) (Store.Array_push a x).
Proof.
  intros Ha σ Hσ. unfold Store.Array_push.
  destruct a as [|r]; [done|].
  destruct (σ !! r) as [[]|]; simpl; try done.
  split; [|done]. by apply preserves_write; [apply Ha|].
Qed.

Lemma preserves_set_elements a l :
  fresh_in σ0 a → preserves σ0 (λ _, True) (Store.set_elements a l).
Proof.
  intros Ha σ Hσ. unfold Store.set_elements.
  destruct a as [|r]; [done|].
  destruct (σ !! r) as [[]|]; simpl; try done.
  split; [|done]. by apply preserves_write; [apply Ha|].
Qed.

Lemma fresh_not_in σ : σ0 ⊆ σ → σ0 !! fresh (dom σ) = None.
Proof.
  intros Hσ. eapply lookup_weaken_None; [|done].
  apply not_elem_of_dom, is_fresh.
Qed.

Lemma preserves_new_array l :
  preserves σ0 (fresh_in σ0) (Store.new_array l).
Proof.
  intros σ Hσ. unfold Store.new_array. simpl.
  pose proof (fresh_not_in σ Hσ) as Hfresh.
  split; [by apply preserves_write|].
  intros a [= <-] r [= <-]. done.
Qed.

Lemma preserves_compareBlocks a b :
  preserves σ0 (λ _, True) (Store.compareBlocks a b).
Proof.
  unfold Store.compareBlocks.
  eapply preserves_bind; [apply preserves_Array_get|]. intros a0 _.
  eapply preserves_bind; [apply preserves_field|]. intros x _.
  eapply preserves_bind; [apply preserves_Array_get|]. intros b0 _.
  eapply preserves_bind; [apply preserves_field|]. intros y _.
  by apply preserves_ret.
Qed.

Lemma preserves_sort_insert x l :
  preserves σ0 (λ _, True) (Store.sort_insert Store.compareBlocks x l).
Proof.
  induction l as [|y l IH]; simpl; [by apply preserves_ret|].
  eapply preserves_bind; [apply preserves_compareBlocks|]. intros c _.
  destruct (c <=? 0); [by apply preserves_ret|].
  eapply preserves_bind; [apply IH|]. intros r _. by apply preserves_ret.
Qed.

Lemma preserves_sort_list l :
  preserves σ0 (λ _, True) (Store.sort_list Store.compareBlocks l).
Proof.
  induction l as [|x l IH]; simpl; [by apply preserves_ret|].
  eapply preserves_bind; [apply IH|]. intros s _.
  apply preserves_sort_insert.
Qed.

Lemma preserves_Array_sort a :
  fresh_in σ0 a →
  preserves σ0 (fresh_in σ0) (Store.Array_sort Store.compareBlocks a).
Proof.
  intros Ha. unfold Store.Array_sort.
  eapply preserves_bind; [by apply (preserves_elements (P := λ _, True))|].
  intros l _.
  eapply preserves_bind; [apply preserves_sort_list|]. intros s _.
  eapply preserves_bind; [by apply preserves_set_elements|]. intros _ _.
  by apply preserves_ret.
Qed.

Lemma preserves_loop_body hourlyData blocks i block :
  fresh_in σ0 blocks → fresh_in σ0 block →
  preserves σ0 (fresh_in σ0) (Store.loop_body hourlyData blocks i block).
Proof.
  intros Hbs Hb. unfold Store.loop_body.
  eapply preserves_bind; [apply preserves_Array_get|]. intros h _.
  eapply preserves_bind; [apply preserves_field|]. intros p _.
  destruct (p <? 0.4)%float; [by apply preserves_ret|].
  eapply preserves_bind; [apply preserves_Array_length|]. intros n _.
  destruct (n =? 0)%nat.
  { eapply preserves_bind; [by apply preserves_Array_push|]. intros _ _.
    by apply preserves_ret. }
  eapply preserves_bind; [apply preserves_Array_get|]. intros last _.
  eapply preserves_bind; [apply preserves_field|]. intros h_dt _.
  eapply preserves_bind; [apply preserves_field|]. intros last_dt _.
  eapply preserves_bind; [apply preserves_Array_length|]. intros n' _.
  destruct (_ && _).
  - eapply preserves_bind; [by apply preserves_Array_push|]. intros _ _.
    by apply preserves_ret.
  - eapply preserves_bind; [by apply preserves_Array_push|]. intros _ _.
    apply preserves_new_array.
Qed.

Lemma preserves_for_loop fuel hourlyData blocks i block :
  fresh_in σ0 blocks → fresh_in σ0 block →
  preserves σ0 (fresh_in σ0) (Store.for_loop fuel hourlyData blocks i block).
Proof.
  intros Hbs. revert i block.
  induction fuel as [|fuel IH]; intros i block Hb; simpl.
  { intros σ Hσ. by split. }
  eapply preserves_bind; [apply preserves_Array_length|]. intros len _.
  destruct (i <? len)%nat; [|by apply preserves_ret].
  eapply preserves_bind; [by apply preserves_loop_body|].
  intros block' Hb'. by apply IH.
Qed.

Lemma preserves_groupByTimeSlots fuel hourlyData :
  preserves σ0 (fresh_in σ0) (Store.groupByTimeSlots fuel hourlyData).
Proof.
  unfold Store.groupByTimeSlots.
  eapply preserves_bind; [apply preserves_new_array|]. intros blocks Hbs.
  eapply preserves_bind; [apply preserves_new_array|]. intros block Hb.
  eapply preserves_bind; [by apply preserves_for_loop|]. intros block' Hb'.
  eapply preserves_bind; [apply preserves_Array_length|]. intros n _.
  eapply preserves_bind with (P := λ _, True).
  { destruct (0 <? n)%nat; [by apply preserves_Array_push|].
    by apply preserves_ret. }
  intros _ _. by apply preserves_Array_sort.
Qed.

End Preserves.

Lemma run_bind {A B : Type} (m : Store.M A) (f : A → Store.M B) σ a σ' :
  m σ = (Store.Returns a, σ') → (m ≫= f) σ = f a σ'.
Proof. intros E. by rewrite bind_run, E. Qed.

Lemma run_elements σ r l :
  σ !! r = Some (Store.OArray l) →
  Store.elements (Store.Ref r) σ = (Store.Returns l, σ).
Proof. unfold Store.elements. by intros ->. Qed.

Lemma run_Array_length σ r l :
  σ !! r = Some (Store.OArray l) →
  Store.Array_length (Store.Ref r) σ = (Store.Returns (length l), σ).
Proof.
  intros E. unfold Store.Array_length.
  by rewrite (run_bind _ _ _ _ _ (run_elements _ _ _ E)).
Qed.

Lemma run_Array_get σ r l i :
  σ !! r = Some (Store.OArray l) →
  Store.Array_get (Store.Ref r) i σ
  = (Store.Returns (default Store.Undefined (l !! i)), σ).
Proof.
  intros E. unfold Store.Array_get.
  by rewrite (run_bind _ _ _ _ _ (run_elements _ _ _ E)).
Qed.

Lemma run_field {A : Type} (f : sample → A) σ r h :
  σ !! r = Some (Store.OSample h) →
  Store.field f (Store.Ref r) σ = (Store.Returns (f h), σ).
Proof. unfold Store.field. by intros ->. Qed.

Lemma run_Array_push σ r l x :
  σ !! r = Some (Store.OArray l) →
  Store.Array_push (Store.Ref r) x σ
  = (Store.Returns (), <[r := Store.OArray (l ++ [x])]> σ).
Proof. unfold Store.Array_push. by intros ->. Qed.

Lemma run_set_elements σ r l l' :
  σ !! r = Some (Store.OArray l) →
  Store.set_elements (Store.Ref r) l' σ
  = (Store.Returns (), <[r := Store.OArray l']> σ).
Proof. unfold Store.set_elements. by intros ->. Qed.

Lemma is_samples_lookup σ0 vs hs i h :
  is_samples σ0 vs hs → hs !! i = Some h →
  ∃ r, vs !! i = Some (Store.Ref r) ∧ σ0 !! r = Some (Store.OSample h).
Proof.
  intros Hvs Hh.
  destruct (Forall2_lookup_r _ _ _ _ _ Hvs Hh) as (v & Hv & r & -> & Hr).
  by exists r.
Qed.

Lemma is_samples_snoc σ0 vs hs r h :
  is_samples σ0 vs hs → σ0 !! r = Some (Store.OSample h) →
  is_samples σ0 (vs ++ [Store.Ref r]) (hs ++ [h]).
Proof.
  intros Hvs Hr. apply Forall2_app; [done|].
  constructor; [by exists r|constructor].
Qed.

Lemma is_window_insert σ0 σ v w r (o : Store.object) :
  is_window σ0 σ v w → v ≠ Store.Ref r → is_window σ0 (<[r := o]> σ) v w.
Proof.
  intros (r' & es & -> & Hfresh & Hr' & Hes) Hne.
  exists r', es. split_and!; try done.
  rewrite lookup_insert_ne; [done|]. by intros ->.
Qed.

Lemma Forall2_impl_Forall {A B : Type} (P Q : A → B → Prop) (R : A → Prop)
    (l : list A) (k : list B) :
  Forall2 P l k → Forall R l → (∀ x y, P x y → R x → Q x y) → Forall2 Q l k.
Proof.
  intros HP HR Himp. induction HP as [|x y l k Hxy _ IH]; [constructor|].
  apply Forall_cons in HR as [Hx HR]. constructor; auto.
Qed.

Section Refine.
Variables (σ0 : Store.heap) (hourlyData : Store.loc).
Variables (vs : list Store.val) (samples : list sample).
Hypothesis input_array : σ0 !! hourlyData = Some (Store.OArray vs).
Hypothesis input_samples : is_samples σ0 vs samples.

Lemma store_inv_push rbs rb bs b σ es r h :
  store_inv σ0 rbs rb (bs, b) σ →
  σ !! rb = Some (Store.OArray es) →
  σ0 !! r = Some (Store.OSample h) →
  store_inv σ0 rbs rb (bs, b ++ [h])
            (<[rb := Store.OArray (es ++ [Store.Ref r])]> σ).
Proof.
  intros [Hbase Hbsf Hbf Hne (bvs & Hbvs & Hws & Hd) (es' & Hes' & Hs)] Hes Hr.
  simpl in *. rewrite Hes in Hes'. injection Hes' as <-.
  split; simpl; try done.
  - by apply preserves_write.
  - exists bvs. split; [|split].
    + by rewrite lookup_insert_ne.
    + eapply Forall2_impl_Forall; [exact Hws|exact Hd|].
      intros v w Hw [_ Hv]. by apply is_window_insert.
    + done.
  - exists (es ++ [Store.Ref r]). split; [by rewrite lookup_insert_eq|].
    by apply is_samples_snoc.
Qed.

Lemma store_inv_close rbs rb bs b σ bvs r h :
  store_inv σ0 rbs rb (bs, b) σ →
  σ !! rbs = Some (Store.OArray bvs) →
  σ0 !! r = Some (Store.OSample h) →
  let σ1 := <[rbs := Store.OArray (bvs ++ [Store.Ref rb])]> σ in
  let rb' := fresh (dom σ1) in
  store_inv σ0 rbs rb' (bs ++ [b], [h])
            (<[rb' := Store.OArray [Store.Ref r]]> σ1).
Proof.
  intros [Hbase Hbsf Hbf Hne (bvs' & Hbvs' & Hws & Hd) (es & Hes & Hs)] Hbvs Hr
         σ1 rb'.
  simpl in *. rewrite Hbvs in Hbvs'. injection Hbvs' as <-.
  assert (σ0 ⊆ σ1) as Hbase1 by (by apply preserves_write).
  assert (σ1 !! rb' = None) as Hnew.
  { apply not_elem_of_dom, is_fresh. }
  assert (σ0 !! rb' = None) as Hnew0 by (by eapply lookup_weaken_None).
  assert (rbs ≠ rb') as Hne'.
  { intros <-. unfold σ1 in Hnew. by rewrite lookup_insert_eq in Hnew. }
  assert (rb ≠ rb') as Hne''.
  { intros <-. unfold σ1 in Hnew. rewrite lookup_insert_ne in Hnew by done.
    by rewrite Hes in Hnew. }
  assert (Forall (λ v, v ≠ Store.Ref rb') bvs) as Hold.
  { apply (Forall2_Forall_l _ _ _ _ Hws), Forall_forall.
    intros w _ v (r' & es' & -> & _ & Hr' & _) [= ->].
    unfold σ1 in Hnew. rewrite lookup_insert_ne in Hnew by done.
    by rewrite Hr' in Hnew. }
  split; simpl; try done.
  - by apply preserves_write.
  - exists (bvs ++ [Store.Ref rb]). split; [|split].
    + rewrite lookup_insert_ne by done. unfold σ1. by rewrite lookup_insert_eq.
    + apply Forall2_app.
      * eapply Forall2_impl_Forall;
          [exact Hws|exact (proj2 (Forall_and _ _) (conj Hd Hold))|].
        intros v w Hw [[Hv1 Hv2] Hv3].
        apply is_window_insert; [|done]. by apply is_window_insert.
      * constructor; [|constructor].
        exists rb, es. split_and!; try done.
        rewrite lookup_insert_ne by done. unfold σ1.
        by rewrite lookup_insert_ne.
    + apply Forall_app. split.
      * eapply Forall_impl;
          [exact (proj2 (Forall_and _ _) (conj Hd Hold))|].
        intros v [[Hv1 _] Hv3]. done.
      * apply Forall_singleton. split; intros [= ?]; congruence.
  - exists [Store.Ref r]. split; [by rewrite lookup_insert_eq|].
    constructor; [by exists r|constructor].
Qed.

Lemma loop_body_refine rbs rb st σ i h :
  store_inv σ0 rbs rb st σ → samples !! i = Some h →
  ∃ rb' σ',
    Store.loop_body (Store.Ref hourlyData) (Store.Ref rbs) i (Store.Ref rb) σ
    = (Store.Returns (Store.Ref rb'), σ') ∧
    store_inv σ0 rbs rb' (step st h) σ'.
Proof.
  intros Hinv Hh. destruct st as [bs b].
  pose proof Hinv
    as [Hbase Hbsf Hbf Hne (bvs & Hbvs & Hws & Hd) (es & Hes & Hs)].
  simpl in *.
  destruct (is_samples_lookup _ _ _ _ _ input_samples Hh) as (r & Hr & Hrh).
  assert (σ !! hourlyData = Some (Store.OArray vs)) as Hhd.
  { by eapply lookup_weaken. }
  assert (σ !! r = Some (Store.OSample h)) as Hrσ.
  { by eapply lookup_weaken. }
  pose proof (Forall2_length _ _ _ Hs) as Hlen.
  unfold Store.loop_body.
  erewrite run_bind by (by eapply run_Array_get). rewrite Hr. simpl.
  erewrite run_bind by (by eapply run_field).
  unfold step, qualifies. simpl.
  destruct (pop h <? 0.4)%float; simpl.
  { by exists rb, σ. }
  erewrite run_bind by (by eapply run_Array_length).
  rewrite Hlen.
  destruct (last b) as [l|] eqn:El.
  - assert (b ≠ []) as Hb by (by intros ->).
    assert (length b ≠ 0)%nat as Hn by (by destruct b).
    apply Nat.eqb_neq in Hn as Hn'. rewrite Hn'.
    rewrite last_lookup in El.
    destruct (is_samples_lookup _ _ _ _ _ Hs El) as (rl & Hrl & Hrl0).
    assert (σ !! rl = Some (Store.OSample l)) as Hrlσ.
    { by eapply lookup_weaken. }
    erewrite run_bind by (by eapply run_Array_get).
    rewrite Nat.sub_1_r, Hrl. simpl.
    erewrite run_bind by (by eapply run_field).
    erewrite run_bind by (by eapply run_field).
    erewrite run_bind by (by eapply run_Array_length).
    rewrite Hlen.
    destruct (_ && _).
    + erewrite run_bind by (by eapply run_Array_push).
      eexists _, _. split; [done|]. by apply store_inv_push.
    + erewrite run_bind by (by eapply run_Array_push).
      eexists _, _. split; [done|].
      by apply (store_inv_close rbs rb bs b σ bvs r h).
  - apply last_None in El. subst b. simpl.
    erewrite run_bind by (by eapply run_Array_push).
    eexists _, _. split; [done|].
    by apply (store_inv_push rbs rb bs [] σ es r h).
Qed.

Lemma for_loop_refine fuel rbs rb st σ i :
  store_inv σ0 rbs rb st σ → (length samples - i < fuel)%nat →
  ∃ rb' σ',
    Store.for_loop fuel (Store.Ref hourlyData) (Store.Ref rbs) i
                   (Store.Ref rb) σ
    = (Store.Returns (Store.Ref rb'), σ') ∧
    store_inv σ0 rbs rb' (foldl step st (drop i samples)) σ'.
Proof.
  revert rb st σ i.
  induction fuel as [|fuel IH]; intros rb st σ i Hinv Hfuel; [lia|].
  simpl.
  assert (σ !! hourlyData = Some (Store.OArray vs)) as Hhd.
  { eapply lookup_weaken; [done|]. by destruct Hinv. }
  pose proof (Forall2_length _ _ _ input_samples) as Hlen.
  erewrite run_bind by (by eapply run_Array_length).
  rewrite Hlen.
  destruct (Nat.ltb_spec i (length samples)) as [Hi|Hi].
  - destruct (lookup_lt_is_Some_2 samples i Hi) as [h Hh].
    destruct (loop_body_refine rbs rb st σ i h Hinv Hh)
      as (rb1 & σ1 & Hrun & Hinv1).
    erewrite run_bind by exact Hrun.
    destruct (IH rb1 (step st h) σ1 (S i) Hinv1 ltac:(lia))
      as (rb' & σ' & Hrun' & Hinv').
    exists rb', σ'. split; [done|].
    by rewrite (drop_S _ _ _ Hh).
  - rewrite drop_ge by lia. simpl. by exists rb, σ.
Qed.

Lemma compareBlocks_refine σ a b wa wb c :
  σ0 ⊆ σ → is_window σ0 σ a wa → is_window σ0 σ b wb →
  compareBlocks wa wb = Ok c →
  Store.compareBlocks a b σ = (Store.Returns c, σ).
Proof.
  intros Hbase (ra & esa & -> & _ & Hra & Hesa) (rb & esb & -> & _ & Hrb & Hesb).
  destruct wa as [|x wa]; [done|]. destruct wb as [|y wb]; [done|].
  rewrite compareBlocks_cons. intros [= <-].
  destruct (is_samples_lookup _ _ _ 0%nat x Hesa eq_refl) as (rx & Hx & Hrx).
  destruct (is_samples_lookup _ _ _ 0%nat y Hesb eq_refl) as (ry & Hy & Hry).
  unfold Store.compareBlocks.
  erewrite run_bind by (by eapply run_Array_get). rewrite Hx. simpl.
  erewrite run_bind by (eapply run_field; by eapply lookup_weaken).
  erewrite run_bind by (by eapply run_Array_get). rewrite Hy. simpl.
  erewrite run_bind by (eapply run_field; by eapply lookup_weaken).
  done.
Qed.

Lemma sort_insert_refine σ rbs x wx l wl r :
  σ0 ⊆ σ → is_window_of σ0 σ rbs x wx → Forall2 (is_window_of σ0 σ rbs) l wl →
  sort_insert compareBlocks wx wl = Ok r →
  ∃ vr, Store.sort_insert Store.compareBlocks x l σ = (Store.Returns vr, σ) ∧
        Forall2 (is_window_of σ0 σ rbs) vr r.
Proof.
  intros Hbase Hx Hl. revert r.
  induction Hl as [|y wy l wl Hy Hl IH]; intros r; simpl.
  { intros [= <-]. exists [x]. split; [done|]. constructor; [done|constructor]. }
  destruct (compareBlocks wx wy) as [c|] eqn:Ec; [|done]. simpl.
  erewrite run_bind
    by (eapply compareBlocks_refine; [done|apply Hx|apply Hy|done]).
  destruct (c <=? 0).
  - intros [= <-]. eexists. split; [done|].
    constructor; [done|]. by constructor.
  - destruct (sort_insert compareBlocks wx wl) as [r'|] eqn:Er; [|done].
    simpl. intros [= <-].
    destruct (IH r' eq_refl) as (vr & Hrun & Hvr).
    erewrite run_bind by exact Hrun.
    eexists. split; [done|]. by constructor.
Qed.

Lemma sort_list_refine σ rbs l wl r :
  σ0 ⊆ σ → Forall2 (is_window_of σ0 σ rbs) l wl →
  Array_sort compareBlocks wl = Ok r →
  ∃ vr, Store.sort_list Store.compareBlocks l σ = (Store.Returns vr, σ) ∧
        Forall2 (is_window_of σ0 σ rbs) vr r.
Proof.
  intros Hbase Hl. revert r.
  induction Hl as [|x wx l wl Hx Hl IH]; intros r; simpl.
  { intros [= <-]. exists []. split; [done|constructor]. }
  destruct (Array_sort compareBlocks wl) as [s|] eqn:Es; [|done]. simpl.
  intros Hr. destruct (IH s eq_refl) as (vs' & Hrun & Hvs').
  erewrite run_bind by exact Hrun.
  by eapply sort_insert_refine.
Qed.

Lemma store_inv_init :
  let rbs := fresh (dom σ0) in
  let σ1 := <[rbs := Store.OArray []]> σ0 in
  let rb := fresh (dom σ1) in
  store_inv σ0 rbs rb ([], []) (<[rb := Store.OArray []]> σ1).
Proof.
  intros rbs σ1 rb.
  assert (σ0 !! rbs = None) as Hrbs by apply not_elem_of_dom, is_fresh.
  assert (σ1 !! rb = None) as Hrb by apply not_elem_of_dom, is_fresh.
  assert (σ0 ⊆ σ1) as Hbase by (by apply insert_subseteq).
  assert (rbs ≠ rb) as Hne.
  { intros <-. unfold σ1 in Hrb. by rewrite lookup_insert_eq in Hrb. }
  assert (σ0 !! rb = None) as Hrb0 by (by eapply lookup_weaken_None).
  split; simpl; try done.
  - by apply preserves_write.
  - exists []. split_and!; [|constructor..].
    rewrite lookup_insert_ne by done. unfold σ1. by rewrite lookup_insert_eq.
  - exists []. split; [by rewrite lookup_insert_eq|constructor].
Qed.

(** With more fuel than the input has elements, the call on the store
    returns a new array of new arrays that hold, window by window, the
    caller's sample objects that [groupByTimeSlots] returns; every object
    of the caller's store is as it was. *)
Lemma groupByTimeSlots_refine fuel :
  (length vs < fuel)%nat →
  ∃ r σ' bvs ws,
    Store.groupByTimeSlots fuel (Store.Ref hourlyData) σ0
    = (Store.Returns (Store.Ref r), σ') ∧
    groupByTimeSlots samples = Ok ws ∧
    σ0 !! r = None ∧ σ0 ⊆ σ' ∧
    σ' !! r = Some (Store.OArray bvs) ∧
    Forall2 (is_window σ0 σ') bvs ws.
Proof.
  intros Hfuel.
  pose proof (Forall2_length _ _ _ input_samples) as Hlen.
  destruct (groupByTimeSlots_perm samples) as (ws & Hws & _).
  pose proof Hws as Hsort. rewrite groupByTimeSlots_unfold in Hsort.
  unfold Store.groupByTimeSlots.
  erewrite run_bind by reflexivity. erewrite run_bind by reflexivity.
  destruct (for_loop_refine fuel _ _ _ _ 0%nat store_inv_init ltac:(lia))
    as (rb & σ3 & Hrun & Hinv).
  erewrite run_bind by exact Hrun. rewrite drop_0 in Hinv.
  set (rbs := fresh (dom σ0)) in *.
  destruct Hinv as [Hbase Hbsf Hbf Hne (bvs & Hbvs & Hwin & Hd) (es & Hes & Hs)].
  unfold windows, close in Hsort.
  destruct (foldl step ([], []) samples) as [bs b]. simpl in *.
  erewrite run_bind by (by eapply run_Array_length).
  rewrite (Forall2_length _ _ _ Hs).
  assert (∃ σ4 bvs4,
            (if (0 <? length b)%nat
             then Store.Array_push (Store.Ref rbs) (Store.Ref rb)
             else mret ()) σ3 = (Store.Returns (), σ4) ∧
            σ0 ⊆ σ4 ∧ σ4 !! rbs = Some (Store.OArray bvs4) ∧
            Forall2 (is_window_of σ0 σ4 rbs) bvs4
                    (if (0 <? length b)%nat then bs ++ [b] else bs))
    as (σ4 & bvs4 & Hpush & Hbase4 & Hbvs4 & Hwin4).
  { destruct (0 <? length b)%nat.
    - eexists _, _. split; [by eapply run_Array_push|].
      split_and!; [by apply preserves_write|by rewrite lookup_insert_eq|].
      apply Forall2_app.
      + eapply Forall2_impl_Forall; [exact Hwin|exact Hd|].
        intros v w Hw [Hv _]. split; [|done]. by apply is_window_insert.
      + constructor; [|constructor]. split; [|by intros [= ->]].
        exists rb, es. split_and!; try done. by rewrite lookup_insert_ne.
    - exists σ3, bvs. split_and!; try done.
      eapply Forall2_impl_Forall; [exact Hwin|exact Hd|].
      intros v w Hw [Hv _]. by split. }
  erewrite run_bind by exact Hpush.
  destruct (sort_list_refine σ4 rbs bvs4 _ ws Hbase4 Hwin4 Hsort)
    as (vr & Hrunsort & Hvr).
  unfold Store.Array_sort.
  erewrite run_bind by (by eapply run_elements).
  erewrite run_bind by exact Hrunsort.
  erewrite run_bind by (by eapply run_set_elements).
  exists rbs, (<[rbs := Store.OArray vr]> σ4), vr, ws.
  split_and!; try done.
  - by apply preserves_write.
  - by rewrite lookup_insert_eq.
  - eapply Forall2_impl; [exact Hvr|].
    intros v w [Hw Hv]. by apply is_window_insert.
Qed.

End Refine.

(** C10. [groupByTimeSlots] never mutates its input. For every store,
    argument and budget, however the call ends, every object of the
    caller's store is as it was, and a returned reference is to an object
    the call made. Called on an array of sample objects, with a budget
    above the length of the array, it returns: the
    input array and its sample objects are unchanged, and the returned
    array (the one the trailing sort has reordered) and the window arrays
    in it are new objects, holding the samples the list model returns. *)
Theorem groupByTimeSlots_input_unchanged :
  (∀ fuel hourlyData σ,
     (∀ l o, σ !! l = Some o →
             (Store.groupByTimeSlots fuel hourlyData σ).2 !! l = Some o) ∧
     (∀ r, (Store.groupByTimeSlots fuel hourlyData σ).1
           = Store.Returns (Store.Ref r) → σ !! r = None)) ∧
  (∀ σ hourlyData vs samples,
     σ !! hourlyData = Some (Store.OArray vs) →
     is_samples σ vs samples →
     ∀ fuel, (length vs < fuel)%nat →
     ∃ r σ' bvs ws,
       Store.groupByTimeSlots fuel (Store.Ref hourlyData) σ
       = (Store.Returns (Store.Ref r), σ') ∧
       groupByTimeSlots samples = Ok ws ∧
       σ !! r = None ∧
       σ' !! hourlyData = Some (Store.OArray vs) ∧
       is_samples σ' vs samples ∧
       σ' !! r = Some (Store.OArray bvs) ∧
       Forall2 (is_window σ σ') bvs ws).
Proof.
  split.
  - intros fuel hourlyData σ.
    destruct (preserves_groupByTimeSlots σ fuel hourlyData σ) as [Hsub Hret];
      [done|].
    split.
    + intros l o Hl. by eapply lookup_weaken.
    + intros r Hr. by apply (Hret _ Hr).
  - intros σ hourlyData vs samples Hhd Hvs fuel Hfuel.
    destruct (groupByTimeSlots_refine σ hourlyData vs samples Hhd Hvs
                fuel Hfuel)
      as (r & σ' & bvs & ws & Hrun & Hws & Hr & Hsub & Hbvs & Hwin).
    exists r, σ', bvs, ws. split_and!; try done.
    + by eapply lookup_weaken.
    + eapply Forall2_impl; [exact Hvs|].
      intros v h (rh & -> & Hrh). exists rh. split; [done|].
      by eapply lookup_weaken.
Qed.

Lemma groupByTimeSlots_input_unchanged_witness :
  example_store !! 1%positive
  = Some (Store.OArray [Store.Ref 2; Store.Ref 3; Store.Ref 4; Store.Ref 5]) ∧
  is_samples example_store
    [Store.Ref 2; Store.Ref 3; Store.Ref 4; Store.Ref 5] example_day ∧
  ∃ r σ',
    Store.groupByTimeSlots 5 (Store.Ref 1) example_store
    = (Store.Returns (Store.Ref r), σ') ∧
    example_store !! r = None ∧
    σ' !! 1%positive
    = Some (Store.OArray [Store.Ref 2; Store.Ref 3; Store.Ref 4; Store.Ref 5]).
Proof.
  assert (example_store !! 1%positive
          = Some (Store.OArray [Store.Ref 2; Store.Ref 3; Store.Ref 4;
                                Store.Ref 5])) as Hhd by reflexivity.
  assert (is_samples example_store
            [Store.Ref 2; Store.Ref 3; Store.Ref 4; Store.Ref 5] example_day)
    as Hvs.
  { repeat constructor; eexists; (split; [reflexivity|reflexivity]). }
  split_and!; [exact Hhd|exact Hvs|].
  destruct (proj2 groupByTimeSlots_input_unchanged _ _ _ _ Hhd Hvs 5%nat
                    ltac:(simpl; lia))
    as (r & σ' & bvs & ws & Hrun & _ & Hr & Hin & _).
  exists r, σ'. split_and!; [exact Hrun|exact Hr|exact Hin].
Defined.

(** * Further properties of the rain windows *)

(** ** Formatting the windows *)

Lemma Array_map_Forall2 {A B : Type} (f : A → result B) (l : list A) :
  Forall (λ x, ∃ y, f x = Ok y) l →
  ∃ r, Array_map f l = Ok r ∧ Forall2 (λ x y, f x = Ok y) l r.
Proof.
  induction 1 as [|x l [y Hy] _ (r & Hr & Hall)]; simpl.
  { exists []. split; [done|constructor]. }
  rewrite Hy. simpl. rewrite Hr. simpl.
  exists (y :: r). split; [done|]. by constructor.
Qed.

Lemma formatRainBlocks_nonempty (getTime toString_large : Z → string)
    (ws : list block) :
  Forall (λ w : block, w ≠ []) ws →
  ∃ lines,
    formatRainBlocks getTime toString_large ws = Ok lines ∧
    Forall2 (λ w line, formatRainBlock getTime toString_large w = Ok line)
            ws lines.
Proof.
  intros Hne. apply Array_map_Forall2.
  eapply Forall_impl; [exact Hne|]. intros [|a w] Hw; [done|].
  destruct (formatRainBlock_cons getTime toString_large a w) as (b & _ & ->).
  by eexists.
Qed.

(** [formatRainBlocks] throws exactly when one of the blocks is empty. *)
Theorem formatRainBlocks_throws (getTime toString_large : Z → string)
    (blocks : list block) :
  formatRainBlocks getTime toString_large blocks = TypeError ↔ [] ∈ blocks.
Proof.
  unfold formatRainBlocks.
  induction blocks as [|w blocks IH]; simpl.
  { split; [done|]. by intros ?%elem_of_nil. }
  rewrite elem_of_cons. destruct w as [|a w].
  { simpl. split; [by left|done]. }
  destruct (formatRainBlock_cons getTime toString_large a w) as (b & _ & ->).
  simpl.
  destruct (Array_map (formatRainBlock getTime toString_large) blocks)
    as [r|]; simpl.
  - split; [done|]. intros [?|Hin]; [done|]. by apply IH in Hin.
  - split; [|done]. intros _. right. by apply IH.
Qed.

(** Formatting what [groupByTimeSlots] returns never throws: one line per
    window, in the order of the windows, each made of the times of the
    first and the last member and the rounded average. *)
Theorem formatRainBlocks_groupByTimeSlots (getTime toString_large : Z → string)
    (hourlyData : list sample) :
  ∃ ws lines,
    groupByTimeSlots hourlyData = Ok ws ∧
    formatRainBlocks getTime toString_large ws = Ok lines ∧
    length lines = length ws ∧
    ∀ i w, ws !! i = Some w →
      ∃ a b, head w = Some a ∧ last w = Some b ∧
             lines !! i
             = Some (tab +:+ tab +:+ "• " +:+ getTime (dt a) +:+ " to "
                     +:+ getTime (dt b) +:+ " – "
                     +:+ toString toString_large (avgProb w) +:+ "%").
Proof.
  destruct (groupByTimeSlots_perm hourlyData) as (ws & Hws & Hp).
  assert (Forall (λ w : block, w ≠ []) ws) as Hne.
  { rewrite Hp. apply windows_nonempty. }
  destruct (formatRainBlocks_nonempty getTime toString_large ws Hne)
    as (lines & Hlines & Hall).
  exists ws, lines. split_and!; [done|done|by erewrite <- Forall2_length|].
  intros i w Hw.
  destruct (Forall2_lookup_l _ _ _ _ _ Hall Hw) as (line & Hline & Hfmt).
  destruct w as [|a w]; [by eapply (Forall_lookup_1 _ _ _ _ Hne) in Hw|].
  destruct (formatRainBlock_cons getTime toString_large a w) as (b & Hb & E).
  rewrite E in Hfmt. injection Hfmt as <-.
  by exists a, b.
Qed.

(** ** How many windows *)

Lemma length_concat_bounds (ws : list block) :
  Forall (λ w : block, (1 ≤ length w ≤ 4)%nat) ws →
  (length ws ≤ length (concat ws) ≤ 4 * length ws)%nat.
Proof.
  induction 1 as [|w ws Hw _ IH]; simpl; [lia|].
  rewrite length_app. lia.
Qed.

(** For every input there are at most as many windows as qualifying
    samples, and at least a quarter as many. *)
Theorem window_count (hourlyData : list sample) :
  ∃ ws, groupByTimeSlots hourlyData = Ok ws ∧
        (length ws ≤ length (filter (λ h, qualifies h = true) hourlyData)
         ≤ 4 * length ws)%nat.
Proof.
  destruct (groupByTimeSlots_perm hourlyData) as (ws & Hws & Hp).
  exists ws. split; [done|].
  pose proof (length_concat_bounds _ (windows_sizes hourlyData)) as Hb.
  rewrite concat_windows in Hb. by rewrite (Permutation_length Hp).
Qed.

(** ** How long a window lasts *)

Lemma adjacent_span (w : block) a b :
  adjacent within_gap w → head w = Some a → last w = Some b →
  dt b - dt a ≤ 7200 * (Z.of_nat (length w) - 1).
Proof.
  revert a. induction w as [|x w IH]; intros a Hadj Ha Hb; [done|].
  simpl in Ha. injection Ha as ->.
  destruct w as [|c w].
  { simpl in Hb. injection Hb as ->. simpl. lia. }
  pose proof (Hadj 0%nat a c eq_refl eq_refl) as Hac. unfold within_gap in Hac.
  pose proof (IH c (adjacent_cons_inv _ _ _ Hadj) eq_refl Hb) as Hcb.
  simpl length in *. lia.
Qed.

Lemma ordered_app_l R l1 l2 : ordered R (l1 ++ l2) → ordered R l1.
Proof.
  intros H i j a b Hij Ha Hb.
  apply (H i j); [done|by apply lookup_app_l_Some..].
Qed.

Lemma ordered_concat_elem R (ws : list block) w :
  ordered R (concat ws) → w ∈ ws → ordered R w.
Proof.
  induction ws as [|w' ws IH]; intros Hord Hw; [by apply elem_of_nil in Hw|].
  simpl in Hord. apply elem_of_cons in Hw as [->|Hw].
  - by eapply ordered_app_l.
  - apply IH; [|done]. by eapply ordered_app_r.
Qed.

Lemma ordered_head_last (w : block) a b :
  ordered Z.le w → head w = Some a → last w = Some b → dt a ≤ dt b.
Proof.
  intros Hord Ha Hb. rewrite head_lookup in Ha. rewrite last_lookup in Hb.
  destruct (decide (pred (length w) = 0)%nat) as [E|E].
  - rewrite E, Ha in Hb. injection Hb as ->. lia.
  - apply (Hord 0%nat (pred (length w))); [lia|done..].
Qed.

(** For every input a window ends at most six hours (21600 seconds)
    after it starts; for input in non-decreasing timestamp order it does
    not end before it starts. *)
Theorem window_span (hourlyData : list sample) :
  ∃ ws, groupByTimeSlots hourlyData = Ok ws ∧
        (∀ w a b, w ∈ ws → head w = Some a → last w = Some b →
                  dt b - dt a ≤ 21600) ∧
        (chronological hourlyData →
         ∀ w a b, w ∈ ws → head w = Some a → last w = Some b →
                  dt a ≤ dt b).
Proof.
  destruct (groupByTimeSlots_perm hourlyData) as (ws & Hws & Hp).
  exists ws. split_and!; [done| |].
  - intros w a b Hw Ha Hb. rewrite Hp in Hw.
    pose proof (proj1 (Forall_forall _ _) (windows_gaps hourlyData) w Hw)
      as Hgap.
    pose proof (proj1 (Forall_forall _ _) (windows_sizes hourlyData) w Hw)
      as Hsz. simpl in Hsz.
    pose proof (adjacent_span w a b Hgap Ha Hb). lia.
  - intros Hl w a b Hw Ha Hb. rewrite Hp in Hw.
    apply (ordered_head_last w a b); [|done..].
    apply (ordered_concat_elem _ (windows hourlyData)); [|done].
    rewrite concat_windows. by apply ordered_filter.
Qed.

Lemma window_span_witness :
  chronological example_run ∧
  ∃ ws, groupByTimeSlots example_run = Ok ws ∧
        ∀ w a b, w ∈ ws → head w = Some a → last w = Some b →
                 0 ≤ dt b - dt a ≤ 21600.
Proof.
  split; [apply example_run_chronological|].
  destruct (window_span example_run) as (ws & Hws & Hmax & Hmin).
  exists ws. split; [exact Hws|].
  intros w a b Hw Ha Hb.
  pose proof (Hmax w a b Hw Ha Hb).
  pose proof (Hmin example_run_chronological w a b Hw Ha Hb). lia.
Defined.

(** ** Grouping across a silence *)

Lemma step_prefix (p : list block) st h :
  step (p ++ st.1, st.2) h = (p ++ (step st h).1, (step st h).2).
Proof.
  destruct st as [bs b]. unfold step. simpl.
  destruct (qualifies h); [|done].
  destruct (last b) as [l|]; [|done].
  destruct (_ && _); simpl; [done|]. by rewrite app_assoc.
Qed.

Lemma foldl_step_prefix (p : list block) l st :
  foldl step (p ++ st.1, st.2) l
  = (p ++ (foldl step st l).1, (foldl step st l).2).
Proof.
  revert st. induction l as [|h l IH]; intros st; simpl.
  { done. }
  rewrite step_prefix. apply (IH (step st h)).
Qed.

Lemma close_prefix (p : list block) st :
  close (p ++ st.1, st.2) = p ++ close st.
Proof.
  destruct st as [bs b]. unfold close. simpl.
  destruct (0 <? length b)%nat; [|done]. by rewrite app_assoc.
Qed.

Lemma foldl_step_unqualified l st :
  Forall (λ h, ¬ qualifies h = true) l → foldl step st l = st.
Proof.
  induction 1 as [|h l Hh _ IH]; simpl; [done|].
  rewrite step_skip; [done|]. by destruct (qualifies h).
Qed.

(** Where the qualifying samples of a chronological input fall silent for
    more than 7200 seconds, the windows are those of the part before the
    silence followed by those of the part after it. *)
Theorem groupByTimeSlots_app (l1 l2 : list sample) a b :
  chronological (l1 ++ l2) →
  last (filter (λ h, qualifies h = true) l1) = Some a →
  head (filter (λ h, qualifies h = true) l2) = Some b →
  7200 < dt b - dt a →
  ∃ ws1 ws2,
    groupByTimeSlots l1 = Ok ws1 ∧ groupByTimeSlots l2 = Ok ws2 ∧
    groupByTimeSlots (l1 ++ l2) = Ok (ws1 ++ ws2).
Proof.
  intros Hl Ha Hb Hgap.
  exists (windows l1), (windows l2). split_and!.
  - apply groupByTimeSlots_chronological. by eapply ordered_app_l.
  - apply groupByTimeSlots_chronological. by eapply ordered_app_r.
  - rewrite groupByTimeSlots_chronological by done. f_equal.
    unfold windows. rewrite foldl_app.
    pose proof (loop_inv_foldl l1 _ loop_inv_init) as Hinv.
    pose proof (flat_foldl l1 ([], [])) as Hflat.
    destruct (foldl step ([], []) l1) as [bs1 b1] eqn:E1.
    unfold flat in Hflat. simpl in Hflat. fold (qualifying l1) in Ha.
    assert (b1 ≠ []) as Hb1.
    { intros ->. pose proof (inv_started _ Hinv eq_refl) as Hbs.
      simpl in Hbs. subst bs1. simpl in Hflat.
      by rewrite <- Hflat in Ha. }
    assert (last b1 = Some a) as Hlast.
    { rewrite <- Hflat, last_app in Ha.
      destruct (last b1) as [y|] eqn:Ey; [done|].
      by apply last_None in Ey. }
    destruct (head_filter_Some _ _ _ Hb) as (pre & rest & -> & Hpre).
    rewrite !foldl_app. rewrite !(foldl_step_unqualified pre) by done. simpl.
    assert (qualifies b = true) as Hq.
    { assert (b ∈ filter (λ h, qualifies h = true) (pre ++ b :: rest)) as Hin.
      { by apply head_Some_elem_of. }
      by apply list_elem_of_filter in Hin as [? _]. }
    assert (step (bs1, b1) b = (bs1 ++ [b1], [b])) as ->.
    { unfold step. rewrite Hq. simpl. rewrite Hlast.
      destruct (dt b - dt a <=? 7200) eqn:Eg; [|done].
      apply Z.leb_le in Eg. lia. }
    assert (step ([], []) b = ([], [b])) as ->.
    { unfold step. by rewrite Hq. }
    pose proof (foldl_step_prefix (bs1 ++ [b1]) rest ([], [b])) as Hpre'.
    simpl in Hpre'. rewrite app_nil_r in Hpre'. rewrite Hpre'.
    rewrite (close_prefix (bs1 ++ [b1]) (foldl step ([], [b]) rest)).
    f_equal. by rewrite close_nonempty.
Qed.

Lemma groupByTimeSlots_app_witness :
  let l1 := [Sample 0 0.5; Sample 3600 0.6; Sample 7200 0.3] in
  let l2 := [Sample 18000 0.7] in
  chronological (l1 ++ l2) ∧
  groupByTimeSlots (l1 ++ l2)
  = Ok ([[Sample 0 0.5; Sample 3600 0.6]] ++ [[Sample 18000 0.7]]).
Proof.
  intros l1 l2.
  assert (chronological (l1 ++ l2)) as Hl by apply example_day_chronological.
  split; [exact Hl|].
  destruct (groupByTimeSlots_app l1 l2 (Sample 3600 0.6) (Sample 18000 0.7)
              Hl eq_refl eq_refl ltac:(simpl; lia))
    as (ws1 & ws2 & H1 & H2 & H12).
  injection H1 as <-. injection H2 as <-. exact H12.
Defined.

(** Grouping is a fixed point on its own result: for chronological input,
    the members of the returned windows, taken in order as a new input,
    give the same windows again. *)
Theorem groupByTimeSlots_regroup (hourlyData : list sample) :
  chronological hourlyData →
  ∃ ws, groupByTimeSlots hourlyData = Ok ws ∧
        groupByTimeSlots (concat ws) = Ok ws.
Proof.
  intros Hl. exists (windows hourlyData).
  pose proof (groupByTimeSlots_chronological _ Hl) as Hws.
  split; [done|].
  by rewrite concat_windows, <- groupByTimeSlots_qualifying.
Qed.

Lemma groupByTimeSlots_regroup_witness :
  chronological example_day ∧
  ∃ ws, groupByTimeSlots example_day = Ok ws ∧
        groupByTimeSlots (concat ws) = Ok ws.
Proof.
  split; [apply example_day_chronological|].
  apply (groupByTimeSlots_regroup example_day), example_day_chronological.
Defined.

(** * The report of [displayForecast]: properties *)

(** ** The two days of the hourly forecast *)

Lemma ordered_take R n l : ordered R l → ordered R (take n l).
Proof. intros H. apply (ordered_app_l R _ (drop n l)). by rewrite take_drop. Qed.

Lemma ordered_drop R n l : ordered R l → ordered R (drop n l).
Proof. intros H. apply (ordered_app_r R (take n l)). by rewrite take_drop. Qed.

Lemma elem_of_concat_perm {A : Type} (ws ws' : list (list A)) x :
  ws ≡ₚ ws' → x ∈ concat ws → x ∈ concat ws'.
Proof.
  intros Hp. rewrite !list_elem_of_In, !in_concat.
  intros (w & Hw & Hx). exists w. split; [|done].
  apply list_elem_of_In. apply list_elem_of_In in Hw. by rewrite <- Hp.
Qed.

Lemma groupByTimeSlots_members l :
  ∃ ws, groupByTimeSlots l = Ok ws ∧
        ∀ h, h ∈ concat ws ↔ h ∈ l ∧ qualifies h = true.
Proof.
  destruct (groupByTimeSlots_perm l) as (ws & Hws & Hp).
  exists ws. split; [done|]. intros h. split.
  - intros Hin. apply (elem_of_concat_perm _ _ _ Hp) in Hin.
    rewrite concat_windows in Hin.
    by apply list_elem_of_filter in Hin as [? ?].
  - intros [Hin Hq]. apply (elem_of_concat_perm (windows l)); [done|].
    rewrite concat_windows. by apply list_elem_of_filter.
Qed.

(** The rain timing of today is made of the first 24 hourly samples and
    that of tomorrow of the next 24, whatever the length of the hourly
    array: neither call throws, no later sample is shown, and for an
    hourly array in non-decreasing timestamp order the members of today's
    windows followed by those of tomorrow's are the qualifying samples of
    the first 48 hours, in order. *)
Theorem day_slices (hourly : list sample) :
  ∃ ws_today ws_tomorrow,
    groupByTimeSlots (Array_slice 0 24 hourly) = Ok ws_today ∧
    groupByTimeSlots (Array_slice 24 48 hourly) = Ok ws_tomorrow ∧
    (∀ w h, w ∈ ws_today → h ∈ w → h ∈ take 24 hourly) ∧
    (∀ w h, w ∈ ws_tomorrow → h ∈ w → h ∈ take 24 (drop 24 hourly)) ∧
    (chronological hourly →
     concat ws_today ++ concat ws_tomorrow
     = filter (λ h, qualifies h = true) (take 48 hourly)).
Proof.
  unfold Array_slice. simpl. rewrite drop_0.
  destruct (groupByTimeSlots_members (take 24 hourly)) as (ws1 & Hws1 & Hm1).
  destruct (groupByTimeSlots_members (take 24 (drop 24 hourly)))
    as (ws2 & Hws2 & Hm2).
  exists ws1, ws2. split_and!; try done.
  - intros w h Hw Hh. apply Hm1, list_elem_of_In, in_concat.
    exists w. by rewrite <- !list_elem_of_In.
  - intros w h Hw Hh. apply Hm2, list_elem_of_In, in_concat.
    exists w. by rewrite <- !list_elem_of_In.
  - intros Hl.
    rewrite groupByTimeSlots_chronological in Hws1
      by (by apply ordered_take).
    rewrite groupByTimeSlots_chronological in Hws2
      by (by apply ordered_take, ordered_drop).
    injection Hws1 as <-. injection Hws2 as <-.
    rewrite !concat_windows. unfold qualifying.
    by rewrite <- filter_app, (take_take_drop hourly 24 24).
Qed.

(** ** When the report is written *)

Lemma rainBlocks_returned (getTime toString_large : Z → string)
    (start end_ : nat) (data : OneCall.Data) :
  ∃ ws lines,
    groupByTimeSlots (Array_slice start end_ (OneCall.hourly data)) = Ok ws ∧
    formatRainBlocks getTime toString_large ws = Ok lines ∧
    Report.rainBlocks getTime toString_large start end_ data = Returned lines.
Proof.
  destruct (groupByTimeSlots_perm
              (Array_slice start end_ (OneCall.hourly data)))
    as (ws & Hws & Hp).
  destruct (formatRainBlocks_nonempty getTime toString_large ws)
    as (lines & Hlines & _).
  { rewrite Hp. apply windows_nonempty. }
  exists ws, lines. split_and!; [done..|].
  unfold Report.rainBlocks. rewrite Hws. simpl. by rewrite Hlines.
Qed.

Lemma length_dayReport mineName label date d blocks :
  (7 ≤ length (Report.dayReport mineName label date d blocks) ≤ 8)%nat.
Proof.
  unfold Report.dayReport. rewrite length_app.
  destruct (_ && _); simpl; lia.
Qed.

(** The report of a mine is written exactly when the response has two
    daily entries that each have a weather entry; otherwise the [try]
    block throws for [weather] (a missing day) or [description] (a day
    without weather entry), and never for the rain blocks. A report has
    14 to 16 lines. *)
Theorem report_returns (getTime toString_large : Z → string)
    (toFixed1 : float → string) (today tomorrow mineName : string)
    (data : OneCall.Data) :
  match Report.report getTime toString_large toFixed1 today tomorrow
                      mineName data with
  | Returned lines =>
      (∃ d0 d1 w0 w1,
         OneCall.daily data !! 0%nat = Some d0 ∧
         OneCall.daily data !! 1%nat = Some d1 ∧
         OneCall.weather d0 !! 0%nat = Some w0 ∧
         OneCall.weather d1 !! 0%nat = Some w1) ∧
      (14 ≤ length lines ≤ 16)%nat
  | Thrown property =>
      (property = "weather" ∧ length (OneCall.daily data) < 2)%nat ∨
      (property = "description" ∧
       ∃ i d, (i < 2)%nat ∧ OneCall.daily data !! i = Some d ∧
              OneCall.weather d = [])
  end.
Proof.
  unfold Report.report, Report.summarizeDay.
  destruct (OneCall.daily data !! 0%nat) as [d0|] eqn:E0; simpl.
  2:{ left. split; [done|]. apply lookup_ge_None in E0. lia. }
  destruct (OneCall.weather d0 !! 0%nat) as [w0|] eqn:Ew0; simpl.
  2:{ right. split; [done|]. exists 0%nat, d0. split_and!; [lia|done|].
      by destruct (OneCall.weather d0). }
  destruct (OneCall.daily data !! 1%nat) as [d1|] eqn:E1; simpl.
  2:{ left. split; [done|]. apply lookup_ge_None in E1. lia. }
  destruct (OneCall.weather d1 !! 0%nat) as [w1|] eqn:Ew1; simpl.
  2:{ right. split; [done|]. exists 1%nat, d1. split_and!; [lia|done|].
      by destruct (OneCall.weather d1). }
  destruct (rainBlocks_returned getTime toString_large 0 24 data)
    as (? & b0 & _ & _ & ->). simpl.
  destruct (rainBlocks_returned getTime toString_large 24 48 data)
    as (? & b1 & _ & _ & ->). simpl.
  split; [by exists d0, d1, w0, w1|].
  unfold Report.dayReport. rewrite !length_app. simpl.
  destruct (_ && _); destruct (_ && _); simpl; lia.
Qed.

Lemma report_length (getTime toString_large : Z → string)
    (toFixed1 : float → string) (today tomorrow mineName : string)
    (data : OneCall.Data) lines :
  Report.report getTime toString_large toFixed1 today tomorrow mineName data
  = Returned lines →
  (14 ≤ length lines ≤ 16)%nat.
Proof.
  unfold Report.report.
  destruct (Report.summarizeDay toFixed1 (OneCall.daily data !! 0%nat))
    as [d0|]; [|done]. simpl.
  destruct (Report.summarizeDay toFixed1 (OneCall.daily data !! 1%nat))
    as [d1|]; [|done]. simpl.
  destruct (Report.rainBlocks getTime toString_large 0 24 data)
    as [b0|]; [|done]. simpl.
  destruct (Report.rainBlocks getTime toString_large 24 48 data)
    as [b1|]; [|done]. simpl.
  intros [= <-]. unfold Report.dayReport. rewrite ?length_app. simpl.
  rewrite ?length_app.
  destruct (_ && _); destruct (_ && _); simpl; lia.
Qed.

Lemma console_log_each_run lines out :
  Report.console_log_each lines out
  = (Report.Normal (), out ++ (Report.log <$> lines)).
Proof.
  revert out. induction lines as [|line lines IH]; intros out; simpl.
  { by rewrite app_nil_r. }
  unfold mbind, Report.script_bind, Report.console_log.
  by rewrite IH, <- app_assoc.
Qed.

Lemma script_bind_run {A B : Type} (m : Report.script A)
    (f : A → Report.script B) out :
  (m ≫= f) out
  = match m out with
    | (Report.Normal a, out') => f a out'
    | (Report.Abrupt message, out') => (Report.Abrupt message, out')
    end.
Proof. reflexivity. Qed.

Lemma forecastMine_run (getTime toString_large : Z → string)
    (toFixed1 : float → string) (TypeError_message : string → string)
    (fetchWeatherData : string → string → Report.fetched)
    (today tomorrow : string) (m : Report.mine) out :
  Report.forecastMine getTime toString_large toFixed1 TypeError_message
                      fetchWeatherData today tomorrow m out
  = (Report.Normal (),
     out ++
     match fetchWeatherData (Report.lat m) (Report.lon m) with
     | Report.Rejected message =>
         [Report.error (Report.error_line m message)]
     | Report.Fetched data =>
         match Report.report getTime toString_large toFixed1 today tomorrow
                             (Report.name m) data with
         | Returned lines => Report.log <$> lines
         | Thrown property =>
             [Report.error
                (Report.error_line m (TypeError_message property))]
         end
     end).
Proof.
  unfold Report.forecastMine, Report.try_catch, Report.report,
    Report.await_fetchWeatherData.
  rewrite script_bind_run.
  destruct (fetchWeatherData _ _) as [data|message]; [|done].
  cbn [mret Report.script_ret]. rewrite script_bind_run.
  destruct (Report.summarizeDay toFixed1 (OneCall.daily data !! 0%nat))
    as [d0|p]; [|done].
  cbn [Report.evaluate mret Report.script_ret]. rewrite script_bind_run.
  destruct (Report.summarizeDay toFixed1 (OneCall.daily data !! 1%nat))
    as [d1|p]; [|done].
  cbn [Report.evaluate mret Report.script_ret]. rewrite script_bind_run.
  destruct (Report.rainBlocks getTime toString_large 0 24 data)
    as [b0|p]; [|done].
  cbn [Report.evaluate mret Report.script_ret]. rewrite script_bind_run.
  destruct (Report.rainBlocks getTime toString_large 24 48 data)
    as [b1|p]; [|done].
  cbn [Report.evaluate mret Report.script_ret]. rewrite script_bind_run.
  rewrite !console_log_each_run.
  cbn [mbind thrown_bind mret thrown_ret].
  by rewrite fmap_app, app_assoc.
Qed.

(** [displayForecast] never ends with an exception, whatever the fetches
    return, and it only adds to the console. For each mine, in the order
    of [mines], it adds either a single [console.error] line (the fetch
    was rejected, or reading the document threw a [TypeError]) or the
    [console.log] lines of a complete report, 14 to 16 of them: no line of
    a report is written before everything that can throw has been
    evaluated, so a report is never cut short by an error, and a failure
    for one mine does not keep the following mines from being processed. *)
Theorem displayForecast_per_mine (getTime toString_large : Z → string)
    (toFixed1 : float → string) (TypeError_message : string → string)
    (fetchWeatherData : string → string → Report.fetched)
    (today tomorrow : string) (mines : list Report.mine)
    (out : list Report.console) :
  ∃ written,
    Report.displayForecast getTime toString_large toFixed1 TypeError_message
                           fetchWeatherData today tomorrow mines out
    = (Report.Normal (), out ++ concat written) ∧
    Forall2
      (λ m w,
         (∃ message,
            w = [Report.error (Report.error_line m message)] ∧
            (fetchWeatherData (Report.lat m) (Report.lon m)
             = Report.Rejected message
             ∨ ∃ data property,
                 fetchWeatherData (Report.lat m) (Report.lon m)
                 = Report.Fetched data ∧
                 Report.report getTime toString_large toFixed1 today
                               tomorrow (Report.name m) data
                 = Thrown property ∧
                 message = TypeError_message property)) ∨
         (∃ data lines,
            w = Report.log <$> lines ∧
            fetchWeatherData (Report.lat m) (Report.lon m)
            = Report.Fetched data ∧
            Report.report getTime toString_large toFixed1 today tomorrow
                          (Report.name m) data
            = Returned lines ∧
            (14 ≤ length lines ≤ 16)%nat))
      mines written.
Proof.
  revert out. induction mines as [|m mines IH]; intros out.
  { exists []. split; [|constructor]. simpl. by rewrite app_nil_r. }
  simpl. unfold mbind at 1, Report.script_bind at 1.
  rewrite forecastMine_run.
  set (w := match fetchWeatherData (Report.lat m) (Report.lon m) with
            | Report.Rejected message => _
            | Report.Fetched data => _
            end).
  destruct (IH (out ++ w)) as (written & -> & Hall).
  exists (w :: written). split; [simpl; by rewrite app_assoc|].
  constructor; [|done]. unfold w. clear w IH Hall.
  destruct (fetchWeatherData _ _) as [data|message] eqn:Ef.
  2:{ left. exists message. split; [done|by left]. }
  destruct (Report.report _ _ _ _ _ _ data) as [lines|property] eqn:Er.
  - right. exists data, lines. split_and!; try done.
    + by eapply report_length.
    + by eapply report_length.
  - left. eexists. split; [done|]. right. by exists data, property.
Qed.

(** ** When production is said to be impacted *)

Lemma formatRainBlocks_indent (getTime toString_large : Z → string)
    (ws : list block) lines :
  formatRainBlocks getTime toString_large ws = Ok lines →
  length lines = length ws ∧
  Forall (λ line, ∃ rest, line = tab +:+ tab +:+ rest) lines.
Proof.
  unfold formatRainBlocks. revert lines.
  induction ws as [|w ws IH]; intros lines; simpl.
  { intros [= <-]. split; [done|constructor]. }
  destruct w as [|a w]; [done|].
  destruct (formatRainBlock_cons getTime toString_large a w) as (b & _ & ->).
  simpl.
  destruct (Array_map (formatRainBlock getTime toString_large) ws)
    as [r|]; [|done].
  simpl. intros [= <-]. destruct (IH r eq_refl) as [Hlen Hall].
  split; [simpl; by rewrite Hlen|].
  constructor; [by eexists|done].
Qed.

Lemma impact_line_dayReport mineName label date d (blocks : list string) :
  Forall (λ line, ∃ rest, line = tab +:+ tab +:+ rest) blocks →
  Report.impact_line ∈ Report.dayReport mineName label date d blocks
  ↔ Report.rain d = true ∧ blocks ≠ [].
Proof.
  intros Hblocks. unfold Report.dayReport.
  rewrite elem_of_app, !elem_of_cons. split.
  - intros [Hbase|Himpact].
    + exfalso. unfold Report.impact_line, tab, nl in Hbase.
      destruct Hbase as [E|[E|[E|[E|[E|[E|[E|E]]]]]]];
        try (simpl in E; discriminate E).
      * destruct blocks as [|x xs]; [simpl in E; discriminate E|].
        apply Forall_cons in Hblocks as [(rest & ->) _].
        destruct xs; simpl in E; discriminate E.
      * by apply elem_of_nil in E.
    + destruct (Report.rain d); simpl in Himpact.
      2:{ by apply elem_of_nil in Himpact. }
      destruct blocks; simpl in Himpact; [by apply elem_of_nil in Himpact|].
      done.
  - intros [-> Hne]. right. destruct blocks; [done|]. simpl. by left.
Qed.

(** For either day, with [d] the summary of the day's entry, the line
    "Production may be impacted due to rain." is among the lines written
    exactly when the day's [pop] is above 0 and one of the day's hourly
    samples has a [pop] that is not below 0.4. *)
Theorem production_impact (getTime toString_large : Z → string)
    (toFixed1 : float → string) (mineName label date : string)
    (daily : OneCall.Daily) (d : Report.summary)
    (start end_ : nat) (data : OneCall.Data) :
  Report.summarizeDay toFixed1 (Some daily) = Returned d →
  ∃ blocks,
    Report.rainBlocks getTime toString_large start end_ data
    = Returned blocks ∧
    (Report.impact_line ∈ Report.dayReport mineName label date d blocks
     ↔ (0 <? OneCall.pop daily)%float = true ∧
       ∃ h, h ∈ Array_slice start end_ (OneCall.hourly data) ∧
            (pop h <? 0.4)%float = false).
Proof.
  intros Hd.
  assert (Report.rain d = (0 <? OneCall.pop daily)%float) as Hrain.
  { unfold Report.summarizeDay in Hd.
    destruct (OneCall.weather daily !! 0%nat); [|done].
    by injection Hd as <-. }
  rewrite <- Hrain. clear Hd Hrain.
  destruct (rainBlocks_returned getTime toString_large start end_ data)
    as (ws & blocks & Hws & Hfmt & Hrun).
  exists blocks. split; [done|].
  destruct (formatRainBlocks_indent _ _ _ _ Hfmt) as [Hlen Hind].
  rewrite (impact_line_dayReport _ _ _ _ _ Hind).
  set (l := Array_slice start end_ (OneCall.hourly data)) in *.
  assert (length ws ≤ length (filter (λ h, qualifies h = true) l)
          ≤ 4 * length ws)%nat as Hcount.
  { destruct (groupByTimeSlots_perm l) as (ws' & Hws' & Hp).
    rewrite Hws in Hws'. injection Hws' as <-.
    pose proof (length_concat_bounds _ (windows_sizes l)) as Hb.
    rewrite concat_windows in Hb. by rewrite (Permutation_length Hp). }
  assert (blocks ≠ [] ↔ ∃ h, h ∈ l ∧ (pop h <? 0.4)%float = false) as Hiff.
  { split.
    - intros Hne.
      destruct (filter (λ h, qualifies h = true) l) as [|h q] eqn:Eq.
      { simpl in Hcount. destruct blocks; [done|]. simpl in Hlen. lia. }
      assert (h ∈ filter (λ h, qualifies h = true) l) as Hin.
      { rewrite Eq. by left. }
      apply list_elem_of_filter in Hin as [Hq Hin].
      exists h. split; [done|]. unfold qualifies in Hq.
      by destruct (pop h <? 0.4)%float.
    - intros (h & Hin & Hq) ->. simpl in Hlen.
      assert (h ∈ filter (λ h, qualifies h = true) l) as Hin'.
      { apply list_elem_of_filter. split; [|done].
        unfold qualifies. by rewrite Hq. }
      destruct (filter (λ h, qualifies h = true) l);
        [by apply elem_of_nil in Hin'|].
      simpl in Hcount. lia. }
  by rewrite Hiff.
Qed.

Lemma production_impact_witness :
  let daily :=
    OneCall.Build_Daily [OneCall.Build_Weather "light rain"]
                        (OneCall.Build_Temp 31 24) 0.8 in
  let data := OneCall.Build_Data [daily] example_day in
  ∃ d blocks,
    Report.summarizeDay (λ _, "") (Some daily) = Returned d ∧
    Report.rainBlocks pretty pretty 0 24 data = Returned blocks ∧
    Report.impact_line ∈ Report.dayReport "mine" "Today" "" d blocks.
Proof.
  intros daily data. eexists.
  destruct (production_impact pretty pretty (λ _, "") "mine" "Today" ""
              daily _ 0 24 data eq_refl) as (blocks & Hblocks & Himpact).
  exists blocks. split_and!; [reflexivity|exact Hblocks|].
  apply Himpact. split; [reflexivity|].
  exists (Sample 0 0.5). split; [|reflexivity].
  apply list_elem_of_In. left. reflexivity.
Defined.

(** * The AccuWeather script: properties *)

Lemma String_length_app s t :
  String.length (s +:+ t) = (String.length s + String.length t)%nat.
Proof. induction s as [|a s IH]; [done|]. cbn. by rewrite <- IH. Qed.

Lemma String_app_inj_r t s1 s2 : s1 +:+ t = s2 +:+ t → s1 = s2.
Proof.
  revert s2. induction s1 as [|a s1 IH]; intros [|b s2] E; [done| | |].
  - apply (f_equal String.length) in E. rewrite !String_length_app in E.
    simpl in E. lia.
  - apply (f_equal String.length) in E. rewrite !String_length_app in E.
    simpl in E. lia.
  - change (String a (s1 +:+ t) = String b (s2 +:+ t)) in E.
    injection E as -> E. f_equal. by apply IH.
Qed.

Lemma show_number_or_NA (Number_toString : float → string) x :
  (∀ v, Number_toString v ≠ "N/A") →
  AccuWeather.show Number_toString (AccuWeather.number_or_NA x) = "N/A"
  ↔ x = None ∨ ∃ v, x = Some v ∧ (is_zero v = true ∨ is_nan v = true).
Proof.
  intros HN. unfold AccuWeather.number_or_NA. destruct x as [v|].
  2:{ split; [by left|done]. }
  destruct (is_zero v) eqn:Ez; simpl.
  { split; [|done]. intros _. right. exists v. auto. }
  destruct (is_nan v) eqn:En; simpl.
  { split; [|done]. intros _. right. exists v. auto. }
  split; [by intros ?%HN|].
  intros [?|(w & [= <-] & [?|?])]; congruence.
Qed.

Lemma show_number_or_NA_Some (Number_toString : float → string) v :
  is_zero v = false → is_nan v = false →
  AccuWeather.show Number_toString (AccuWeather.number_or_NA (Some v))
  = Number_toString v.
Proof. intros Hz Hn. simpl. by rewrite Hz, Hn. Qed.

Lemma rainInNext12Hours_cases (toLocaleTimeString : string → string) daily :
  AccuWeather.rainInNext12Hours toLocaleTimeString daily
  = "No major rain expected in the next 12 hours."
  ∨ ∃ s, AccuWeather.rainInNext12Hours toLocaleTimeString daily
         = "Rain expected at " +:+ s.
Proof.
  unfold AccuWeather.rainInNext12Hours.
  destruct (AccuWeather.Day daily ≫= AccuWeather.HourlyForecasts)
    as [hours|]; [|by left].
  induction hours as [|h hours IH]; simpl; [by left|].
  destruct (AccuWeather.Hourly.HasPrecipitation h); [right; by eexists|done].
Qed.

(** What [getTodayForecast] writes for a document with a first daily
    forecast. The line for the maximum temperature reads
    "Max Temp: N/A°C" exactly when the document has no maximum or the
    maximum is 0 or NaN, so a forecast of exactly 0 degrees is reported like
    a missing one; the same holds of the minimum temperature and of the
    chance of rain. A value that is present and neither 0 nor NaN is
    written as a number. (The number's digits never read "N/A".) *)
Theorem zero_shown_as_NA (Number_toString : float → string)
    (toLocaleDateString toLocaleTimeString : string → string)
    (daily : AccuWeather.daily_forecast)
    (rest : list AccuWeather.daily_forecast) :
  (∀ v, Number_toString v ≠ "N/A") →
  let written :=
    AccuWeather.getTodayForecast Number_toString toLocaleDateString
      toLocaleTimeString
      (AccuWeather.Resolved
         (Some (AccuWeather.Build_document (Some (daily :: rest))))) in
  let absent_or_falsy (x : option float) :=
    x = None ∨ ∃ v, x = Some v ∧ (is_zero v = true ∨ is_nan v = true) in
  let maximum :=
    (AccuWeather.Temperature daily ≫= AccuWeather.Maximum)
      ≫= AccuWeather.Value in
  let minimum :=
    (AccuWeather.Temperature daily ≫= AccuWeather.Minimum)
      ≫= AccuWeather.Value in
  let chance := AccuWeather.Day daily ≫= AccuWeather.RainProbability in
  (AccuWeather.log "Max Temp: N/A°C" ∈ written ↔ absent_or_falsy maximum) ∧
  (AccuWeather.log "Min Temp: N/A°C" ∈ written ↔ absent_or_falsy minimum) ∧
  (AccuWeather.log "Chance of Rain: N/A%" ∈ written
   ↔ absent_or_falsy chance) ∧
  (∀ v, maximum = Some v → is_zero v = false → is_nan v = false →
        AccuWeather.log ("Max Temp: " +:+ Number_toString v +:+ "°C")
        ∈ written) ∧
  (∀ v, minimum = Some v → is_zero v = false → is_nan v = false →
        AccuWeather.log ("Min Temp: " +:+ Number_toString v +:+ "°C")
        ∈ written) ∧
  (∀ v, chance = Some v → is_zero v = false → is_nan v = false →
        AccuWeather.log ("Chance of Rain: " +:+ Number_toString v +:+ "%")
        ∈ written).
Proof.
  intros HN written absent_or_falsy maximum minimum chance.
  assert (written
          = [AccuWeather.log
               ("=== Suliyari Coal Mine Weather Forecast for "
                +:+ toLocaleDateString (AccuWeather.Date daily) +:+ " ===");
             AccuWeather.log ("Weather: " +:+ AccuWeather.weatherType daily);
             AccuWeather.log
               ("Max Temp: "
                +:+ AccuWeather.show Number_toString
                      (AccuWeather.number_or_NA maximum) +:+ "°C");
             AccuWeather.log
               ("Min Temp: "
                +:+ AccuWeather.show Number_toString
                      (AccuWeather.number_or_NA minimum) +:+ "°C");
             AccuWeather.log (nl +:+ "--- Precipitation Info ---");
             AccuWeather.log
               ("Chance of Rain: "
                +:+ AccuWeather.show Number_toString
                      (AccuWeather.number_or_NA chance) +:+ "%");
             AccuWeather.log
               ("Precipitation: " +:+ AccuWeather.precipitation daily);
             AccuWeather.log (nl +:+ "--- Hourly Rain Forecast ---");
             AccuWeather.log
               (AccuWeather.rainInNext12Hours toLocaleTimeString daily)])
    as ->.
  { reflexivity. }
  pose proof (rainInNext12Hours_cases toLocaleTimeString daily) as Hrain.
  set (hourly := AccuWeather.rainInNext12Hours toLocaleTimeString daily) in *.
  unfold absent_or_falsy. clear absent_or_falsy.
  rewrite <- !(show_number_or_NA Number_toString _ HN).
  split_and!.
  - rewrite !elem_of_cons, elem_of_nil. split.
    + intros [E|[E|[E|[E|[E|[E|[E|[E|[E|[]]]]]]]]]];
        try (injection E as E; discriminate E).
      * injection E as E. apply (String_app_inj_r "°C" _ "N/A").
        symmetry. exact E.
      * injection E as E.
        destruct Hrain as [Hr|[s Hr]]; rewrite Hr in E; discriminate E.
    + intros ->. right. right. by left.
  - rewrite !elem_of_cons, elem_of_nil. split.
    + intros [E|[E|[E|[E|[E|[E|[E|[E|[E|[]]]]]]]]]];
        try (injection E as E; discriminate E).
      * injection E as E. apply (String_app_inj_r "°C" _ "N/A").
        symmetry. exact E.
      * injection E as E.
        destruct Hrain as [Hr|[s Hr]]; rewrite Hr in E; discriminate E.
    + intros ->. do 3 right. by left.
  - rewrite !elem_of_cons, elem_of_nil. split.
    + intros [E|[E|[E|[E|[E|[E|[E|[E|[E|[]]]]]]]]]];
        try (injection E as E; discriminate E).
      * injection E as E. apply (String_app_inj_r "%" _ "N/A").
        symmetry. exact E.
      * injection E as E.
        destruct Hrain as [Hr|[s Hr]]; rewrite Hr in E; discriminate E.
    + intros ->. do 5 right. by left.
  - intros v -> Hz Hn. rewrite (show_number_or_NA_Some _ _ Hz Hn).
    do 2 right. by left.
  - intros v -> Hz Hn. rewrite (show_number_or_NA_Some _ _ Hz Hn).
    do 3 right. by left.
  - intros v -> Hz Hn. rewrite (show_number_or_NA_Some _ _ Hz Hn).
    do 5 right. by left.
Qed.

Lemma zero_shown_as_NA_witness :
  let daily :=
    AccuWeather.Build_daily_forecast
      (Some (AccuWeather.Build_temperature
               (Some (AccuWeather.Build_quantity (Some 0%float)))
               (Some (AccuWeather.Build_quantity (Some (-4)%float)))))
      None "2026-01-10" in
  let written :=
    AccuWeather.getTodayForecast (λ _, "-4") (λ s, s) (λ s, s)
      (AccuWeather.Resolved
         (Some (AccuWeather.Build_document (Some [daily])))) in
  AccuWeather.log "Max Temp: N/A°C" ∈ written ∧
  AccuWeather.log "Min Temp: -4°C" ∈ written.
Proof.
  intros daily written.
  assert (∀ v : float, (λ _ : float, "-4") v ≠ "N/A") as HN by done.
  destruct (zero_shown_as_NA (λ _, "-4") (λ s, s) (λ s, s) daily [] HN)
    as (Hmax & _ & _ & _ & Hmin & _).
  split.
  - apply Hmax. right. exists 0%float. split; [reflexivity|by left].
  - apply (Hmin (-4)%float); reflexivity.
Defined.

Lemma rain_loop_dry (toLocaleTimeString : string → string) hours message :
  Forall (λ h, AccuWeather.Hourly.HasPrecipitation h = false) hours →
  AccuWeather.rain_loop toLocaleTimeString hours message = message.
Proof. induction 1 as [|h hours Hh _ IH]; simpl; [done|]. by rewrite Hh. Qed.

(** The hourly message names the first hour with precipitation, whatever
    comes after it; without such an hour, and without hourly forecasts,
    it is the message that no major rain is expected. *)
Theorem first_rain_hour (toLocaleTimeString : string → string)
    (daily : AccuWeather.daily_forecast) :
  (∀ d before hour after,
     AccuWeather.Day daily = Some d →
     AccuWeather.HourlyForecasts d = Some (before ++ hour :: after) →
     Forall (λ h, AccuWeather.Hourly.HasPrecipitation h = false) before →
     AccuWeather.Hourly.HasPrecipitation hour = true →
     AccuWeather.rainInNext12Hours toLocaleTimeString daily
     = "Rain expected at "
       +:+ toLocaleTimeString (AccuWeather.Hourly.DateTime hour)) ∧
  ((∀ d hours,
      AccuWeather.Day daily = Some d →
      AccuWeather.HourlyForecasts d = Some hours →
      Forall (λ h, AccuWeather.Hourly.HasPrecipitation h = false) hours) →
   AccuWeather.rainInNext12Hours toLocaleTimeString daily
   = "No major rain expected in the next 12 hours.").
Proof.
  unfold AccuWeather.rainInNext12Hours. split.
  - intros d before hour after -> Hh Hdry Hwet. simpl. rewrite Hh.
    clear Hh. induction Hdry as [|h before Hd _ IH]; simpl.
    + by rewrite Hwet.
    + by rewrite Hd.
  - intros Hdry. destruct (AccuWeather.Day daily) as [d|]; simpl; [|done].
    destruct (AccuWeather.HourlyForecasts d) as [hours|] eqn:Eh; [|done].
    apply rain_loop_dry. by eapply Hdry.
Qed.

Lemma first_rain_hour_witness :
  let wet := AccuWeather.Hourly.Build_hour true "2026-11-03T15:00" in
  let dry := AccuWeather.Hourly.Build_hour false "2026-11-03T14:00" in
  let d := AccuWeather.Build_day None None None (Some [dry; wet; dry; wet]) in
  AccuWeather.rainInNext12Hours (λ s, s)
    (AccuWeather.Build_daily_forecast None (Some d) "2026-11-03")
  = "Rain expected at 2026-11-03T15:00".
Proof.
  intros wet dry d.
  apply (proj1 (first_rain_hour (λ s, s)
                  (AccuWeather.Build_daily_forecast None (Some d)
                     "2026-11-03"))
           d [dry] wet [dry; wet]); [reflexivity..| |reflexivity].
  repeat constructor.
Defined.

(** * The forecast script: properties *)

Lemma String_split_nonempty c s : String_split c s ≠ [].
Proof.
  destruct s as [|a s]; simpl; [done|].
  destruct (Ascii.eqb a c); [done|]. by destruct (String_split c s).
Qed.

(** [split] gives a second part exactly when the separator occurs. *)
Lemma String_split_second c s :
  String_split c s !! 1%nat = None ↔ ¬ In c (String.list_ascii_of_string s).
Proof.
  induction s as [|a s IH]; simpl.
  { split; [by intros _ []|done]. }
  destruct (Ascii.eqb_spec a c) as [->|Hne].
  - simpl. pose proof (String_split_nonempty c s).
    destruct (String_split c s) as [|x xs]; [done|]. simpl.
    split; [done|]. intros H'. destruct H'. by left.
  - destruct (String_split c s) as [|x xs] eqn:E.
    { by apply String_split_nonempty in E. }
    simpl in *. rewrite IH. split.
    + intros Hs [?|?]; [done|]. by apply Hs.
    + intros Hs ?. apply Hs. by right.
Qed.

Lemma pops_Forall2 (l : list Forecast.item) ps :
  Forecast.pops l = Returned ps →
  Forall2 (λ f p, Forecast.pop_of p = Forecast.pop f) l ps.
Proof.
  revert ps. induction l as [|f l IH]; intros ps; simpl.
  { intros [= <-]. constructor. }
  destruct (Forecast.time_of f) as [t|]; [|done]. simpl.
  destruct (Forecast.pops l) as [ps'|]; [|done]. simpl.
  intros [= <-]. constructor; [done|]. by apply IH.
Qed.

Lemma pops_throws (l : list Forecast.item) property :
  Forecast.pops l = Thrown property →
  property = "slice" ∧
  ∃ f, f ∈ l ∧ ¬ In space (String.list_ascii_of_string (Forecast.dt_txt f)).
Proof.
  induction l as [|f l IH]; simpl; [done|].
  unfold Forecast.time_of at 1.
  destruct (String_split space (Forecast.dt_txt f) !! 1%nat) as [t|] eqn:Et;
    simpl.
  - destruct (Forecast.pops l) as [ps'|p]; [done|]. simpl.
    intros [= ->]. destruct (IH eq_refl) as (-> & f' & Hin & Hf').
    split; [done|]. exists f'. split; [by right|done].
  - intros [= <-]. split; [done|]. exists f. split; [by left|].
    by apply String_split_second.
Qed.

Lemma rainy_Forall2 (l : list Forecast.item) (ps : list Forecast.pop_at) :
  Forall2 (λ f p, Forecast.pop_of p = Forecast.pop f) l ps →
  length (filter (λ p, (0.1 <? Forecast.pop_of p)%float = true) ps)
  = length (filter (λ f, (0.1 <? Forecast.pop f)%float = true) l) ∧
  (existsb (λ p, (0.1 <? Forecast.pop_of p)%float) ps = true
   ↔ filter (λ f, (0.1 <? Forecast.pop f)%float = true) l ≠ []).
Proof.
  induction 1 as [|f p l ps Hfp _ [IHlen IHex]]; simpl.
  { split; [done|]. split; [done|]. by intros []. }
  rewrite !filter_cons, Hfp.
  destruct (decide ((0.1 <? Forecast.pop f)%float = true)) as [E|E].
  - rewrite E. simpl. split; [by rewrite IHlen|]. done.
  - destruct (0.1 <? Forecast.pop f)%float; [done|]. simpl. done.
Qed.

Lemma forecastTomorrow_rainy (toFixed1 : float → string)
    (toString_large : Z → string) (tmrDateStr : string)
    (items : list Forecast.item) (t : Forecast.tomorrow) :
  Forecast.forecastTomorrow toFixed1 toString_large tmrDateStr items
  = Returned t →
  let rainy :=
    filter (λ f, (0.1 <? Forecast.pop f)%float = true ∧
                 String.prefix tmrDateStr (Forecast.dt_txt f) = true) items in
  length (Forecast.rainTimes t) = length rainy ∧
  (Forecast.rainExpected t = true ↔ rainy ≠ []).
Proof.
  unfold Forecast.forecastTomorrow.
  destruct (Forecast.pops (Forecast.tmrForecasts tmrDateStr items))
    as [ps|] eqn:Eps; [|done].
  simpl. intros [= <-]. simpl.
  destruct (rainy_Forall2 _ _ (pops_Forall2 _ _ Eps)) as [Hlen Hex].
  unfold Forecast.tmrForecasts in Hlen, Hex.
  rewrite list_filter_filter in Hlen, Hex.
  by rewrite length_fmap.
Qed.

Lemma filter_nonempty_exists {A : Type} (P : A → Prop)
    `{!∀ x, Decision (P x)} (l : list A) :
  filter P l ≠ [] ↔ ∃ x, x ∈ l ∧ P x.
Proof.
  split.
  - intros Hne. destruct (filter P l) as [|x rest] eqn:E; [done|].
    assert (x ∈ filter P l) as Hin by (rewrite E; by left).
    apply list_elem_of_filter in Hin as [? ?]. by exists x.
  - intros (x & Hin & Hx) Hnil.
    assert (x ∈ filter P l) as Hin' by (by apply list_elem_of_filter).
    rewrite Hnil in Hin'. by apply elem_of_nil in Hin'.
Qed.

(** Rain is announced for tomorrow exactly when some forecast dated
    tomorrow has a [pop] above 0.1, and the timeline has one entry for
    each such forecast: it is never printed empty. *)
Theorem rain_timeline (toFixed1 : float → string)
    (toString_large : Z → string) (tmrDateStr : string)
    (items : list Forecast.item) (t : Forecast.tomorrow) :
  Forecast.forecastTomorrow toFixed1 toString_large tmrDateStr items
  = Returned t →
  (Forecast.rainExpected t = true
   ↔ ∃ f, f ∈ items ∧
          String.prefix tmrDateStr (Forecast.dt_txt f) = true ∧
          (0.1 <? Forecast.pop f)%float = true) ∧
  length (Forecast.rainTimes t)
  = length (filter (λ f, (0.1 <? Forecast.pop f)%float = true ∧
                         String.prefix tmrDateStr (Forecast.dt_txt f) = true)
                   items) ∧
  (Forecast.rainExpected t = true ↔ Forecast.rainTimes t ≠ []).
Proof.
  intros Ht.
  destruct (forecastTomorrow_rainy _ _ _ _ _ Ht) as [Hlen Hex].
  split_and!.
  - rewrite Hex, filter_nonempty_exists. split.
    + intros (f & Hin & Hr & Hp). by exists f.
    + intros (f & Hin & Hp & Hr). by exists f.
  - done.
  - rewrite Hex. rewrite <- !length_zero_iff_nil. by rewrite Hlen.
Qed.

Lemma rain_timeline_witness :
  let items :=
    [Forecast.Build_item "2026-11-04 12:00:00" 30.5 0.25;
     Forecast.Build_item "2026-11-05 12:00:00" 30.5 0.5;
     Forecast.Build_item "2026-11-04 15:00:00" 28 0.05] in
  ∃ t, Forecast.forecastTomorrow (λ _, "") pretty "2026-11-04" items
       = Returned t ∧
       Forecast.rainTimes t = ["12:00 (25%)"] ∧
       (Forecast.rainExpected t = true ↔ Forecast.rainTimes t ≠ []).
Proof.
  intros items. eexists. split; [reflexivity|]. split; [reflexivity|].
  apply (rain_timeline (λ _, "") pretty "2026-11-04" items). reflexivity.
Defined.

(** When no forecast is dated tomorrow, the maximum is [Math.max()] =
    -Infinity and the minimum [Math.min()] = Infinity, passed to
    [toFixed], and no rain is expected. *)
Theorem no_forecast_for_tomorrow (toFixed1 : float → string)
    (toString_large : Z → string) (tmrDateStr : string)
    (items : list Forecast.item) :
  Forall (λ f, String.prefix tmrDateStr (Forecast.dt_txt f) = false) items →
  Forecast.forecastTomorrow toFixed1 toString_large tmrDateStr items
  = Returned {| Forecast.maxTemp := toFixed1 neg_infinity;
                Forecast.minTemp := toFixed1 infinity;
                Forecast.rainExpected := false;
                Forecast.rainTimes := [] |}.
Proof.
  intros Hnone. unfold Forecast.forecastTomorrow.
  assert (Forecast.tmrForecasts tmrDateStr items = []) as ->; [|done].
  unfold Forecast.tmrForecasts.
  induction Hnone as [|f items Hf _ IH]; [done|].
  rewrite filter_cons, IH.
  destruct (decide (String.prefix tmrDateStr (Forecast.dt_txt f) = true));
    [congruence|done].
Qed.

Lemma no_forecast_for_tomorrow_witness :
  Forecast.forecastTomorrow (λ _, "") pretty "2026-11-04"
    [Forecast.Build_item "2026-11-05 12:00:00" 30.5 0.5]
  = Returned {| Forecast.maxTemp := "";
                Forecast.minTemp := "";
                Forecast.rainExpected := false;
                Forecast.rainTimes := [] |}.
Proof.
  apply (no_forecast_for_tomorrow (λ _, "") pretty "2026-11-04").
  repeat constructor.
Defined.

(** [fetchWeather] throws only when the current weather has no entry
    (reading [main]) or a forecast dated tomorrow has no space in its
    [dt_txt] (calling [slice]); otherwise it writes 20 lines, and a 21st,
    the timeline, exactly when rain is expected for tomorrow. *)
Theorem fetchWeather_outcome (toFixed1 : float → string)
    (toString_large : Z → string)
    (stamp todayStr tomorrowStr tmrDateStr : string)
    (cur : Forecast.current) (items : list Forecast.item) :
  match Forecast.fetchWeather toFixed1 toString_large stamp todayStr
                              tomorrowStr tmrDateStr cur items with
  | Returned lines =>
      Forecast.weather cur ≠ [] ∧
      (20 ≤ length lines ≤ 21)%nat ∧
      (length lines = 21%nat
       ↔ ∃ f, f ∈ items ∧
              String.prefix tmrDateStr (Forecast.dt_txt f) = true ∧
              (0.1 <? Forecast.pop f)%float = true)
  | Thrown property =>
      (property = "main" ∧ Forecast.weather cur = []) ∨
      (property = "slice" ∧
       ∃ f, f ∈ items ∧
            String.prefix tmrDateStr (Forecast.dt_txt f) = true ∧
            ¬ In space (String.list_ascii_of_string (Forecast.dt_txt f)))
  end.
Proof.
  unfold Forecast.fetchWeather.
  destruct (Forecast.weather cur) as [|w ws] eqn:Ew; simpl.
  { left. done. }
  destruct (Forecast.forecastTomorrow toFixed1 toString_large tmrDateStr items)
    as [t|property] eqn:Et; simpl.
  - destruct (forecastTomorrow_rainy _ _ _ _ _ Et) as (_ & Hex).
    assert (Forecast.rainExpected t = true
            ↔ ∃ f, f ∈ items ∧
                   String.prefix tmrDateStr (Forecast.dt_txt f) = true ∧
                   (0.1 <? Forecast.pop f)%float = true) as Hrain.
    { rewrite Hex, filter_nonempty_exists. split.
      - intros (f & Hin & Hr & Hp). by exists f.
      - intros (f & Hin & Hp & Hr). by exists f. }
    split; [done|].
    destruct (Forecast.rainExpected t); simpl.
    + split; [lia|]. split; [intros _; by apply Hrain|done].
    + split; [lia|]. split; [lia|]. intros H'. by apply Hrain in H'.
  - right. unfold Forecast.forecastTomorrow in Et.
    destruct (Forecast.pops (Forecast.tmrForecasts tmrDateStr items))
      as [ps|p] eqn:Eps; [done|].
    simpl in Et. injection Et as ->.
    destruct (pops_throws _ _ Eps) as (-> & f & Hin & Hf).
    split; [done|]. exists f.
    apply list_elem_of_filter in Hin as [? ?]. done.
Qed.

(** * Windows in time *)

Lemma ordered_windows R (ws : list block) :
  ordered R (concat ws) →
  ∀ i j w1 w2 x y, (i < j)%nat → ws !! i = Some w1 → ws !! j = Some w2 →
                   x ∈ w1 → y ∈ w2 → R (dt x) (dt y).
Proof.
  induction ws as [|w ws IH]; intros Hord i j w1 w2 x y Hij H1 H2 Hx Hy.
  { by rewrite lookup_nil in H1. }
  destruct j as [|j]; [lia|]. simpl in H2, Hord.
  destruct i as [|i]; simpl in H1.
  - injection H1 as <-.
    apply list_elem_of_lookup in Hx as [p Hp].
    assert (y ∈ concat ws) as Hy'.
    { apply list_elem_of_In, in_concat. exists w2.
      rewrite <- !list_elem_of_In. split; [|done].
      apply list_elem_of_lookup. by exists j. }
    apply list_elem_of_lookup in Hy' as [q Hq].
    apply (Hord p (length w + q)%nat).
    + apply lookup_lt_Some in Hp. lia.
    + by apply lookup_app_l_Some.
    + rewrite lookup_app_r by lia.
      by replace (length w + q - length w)%nat with q by lia.
  - apply (IH (ordered_app_r _ _ _ Hord) i j w1 w2); [lia|done..].
Qed.

(** For input in non-decreasing timestamp order no member of a window is
    later than a member of a window further down the result: the time
    ranges displayed do not overlap. With unique timestamps each window
    ends before the next one starts. *)
Theorem windows_in_time_order (hourlyData : list sample) :
  chronological hourlyData →
  ∃ ws, groupByTimeSlots hourlyData = Ok ws ∧
        (∀ i j w1 w2 x y,
           (i < j)%nat → ws !! i = Some w1 → ws !! j = Some w2 →
           x ∈ w1 → y ∈ w2 → dt x ≤ dt y) ∧
        (strictly_chronological hourlyData →
         ∀ i j w1 w2 x y,
           (i < j)%nat → ws !! i = Some w1 → ws !! j = Some w2 →
           x ∈ w1 → y ∈ w2 → dt x < dt y).
Proof.
  intros Hl. exists (windows hourlyData).
  split; [by apply groupByTimeSlots_chronological|]. split.
  - apply ordered_windows. rewrite concat_windows. by apply ordered_filter.
  - intros Hs. apply ordered_windows. rewrite concat_windows.
    by apply ordered_filter.
Qed.

Lemma windows_in_time_order_witness :
  chronological example_day ∧
  ∃ ws, groupByTimeSlots example_day = Ok ws ∧
        ∀ i j w1 w2 x y,
          (i < j)%nat → ws !! i = Some w1 → ws !! j = Some w2 →
          x ∈ w1 → y ∈ w2 → dt x < dt y.
Proof.
  split; [apply example_day_chronological|].
  destruct (windows_in_time_order example_day example_day_chronological)
    as (ws & Hws & _ & Hstrict).
  exists ws. split; [exact Hws|]. apply Hstrict, example_day_strict.
Defined.

Lemma day_slices_witness :
  chronological example_day ∧
  ∃ ws_today ws_tomorrow,
    groupByTimeSlots (Array_slice 0 24 example_day) = Ok ws_today ∧
    groupByTimeSlots (Array_slice 24 48 example_day) = Ok ws_tomorrow ∧
    concat ws_today ++ concat ws_tomorrow
    = filter (λ h, qualifies h = true) (take 48 example_day).
Proof.
  split; [apply example_day_chronological|].
  destruct (day_slices example_day)
    as (ws1 & ws2 & H1 & H2 & _ & _ & Hcat).
  exists ws1, ws2. split_and!; [exact H1|exact H2|].
  apply Hcat, example_day_chronological.
Defined.

(** * A missing element of the input array *)

Lemma loop_body_sample σ0 hourlyData vs rbs rb st σ i r h :
  σ0 !! hourlyData = Some (Store.OArray vs) →
  vs !! i = Some (Store.Ref r) →
  σ0 !! r = Some (Store.OSample h) →
  store_inv σ0 rbs rb st σ →
  ∃ rb' σ',
    Store.loop_body (Store.Ref hourlyData) (Store.Ref rbs) i (Store.Ref rb) σ
    = (Store.Returns (Store.Ref rb'), σ') ∧
    store_inv σ0 rbs rb' (step st h) σ'.
Proof.
  intros Harr Hr Hrh Hinv. destruct st as [bs b].
  pose proof Hinv
    as [Hbase Hbsf Hbf Hne (bvs & Hbvs & Hws & Hd) (es & Hes & Hs)].
  simpl in *.
  assert (σ !! hourlyData = Some (Store.OArray vs)) as Hhd.
  { by eapply lookup_weaken. }
  assert (σ !! r = Some (Store.OSample h)) as Hrσ.
  { by eapply lookup_weaken. }
  pose proof (Forall2_length _ _ _ Hs) as Hlen.
  unfold Store.loop_body.
  erewrite run_bind by (by eapply run_Array_get). rewrite Hr. simpl.
  erewrite run_bind by (by eapply run_field).
  unfold step, qualifies. simpl.
  destruct (pop h <? 0.4)%float; simpl.
  { by exists rb, σ. }
  erewrite run_bind by (by eapply run_Array_length).
  rewrite Hlen.
  destruct (last b) as [l|] eqn:El.
  - assert (length b ≠ 0)%nat as Hn by (by destruct b).
    apply Nat.eqb_neq in Hn as Hn'. rewrite Hn'.
    rewrite last_lookup in El.
    destruct (is_samples_lookup _ _ _ _ _ Hs El) as (rl & Hrl & Hrl0).
    assert (σ !! rl = Some (Store.OSample l)) as Hrlσ.
    { by eapply lookup_weaken. }
    erewrite run_bind by (by eapply run_Array_get).
    rewrite Nat.sub_1_r, Hrl. simpl.
    erewrite run_bind by (by eapply run_field).
    erewrite run_bind by (by eapply run_field).
    erewrite run_bind by (by eapply run_Array_length).
    rewrite Hlen.
    destruct (_ && _).
    + erewrite run_bind by (by eapply run_Array_push).
      eexists _, _. split; [done|]. by apply store_inv_push.
    + erewrite run_bind by (by eapply run_Array_push).
      eexists _, _. split; [done|].
      by apply (store_inv_close σ0 rbs rb bs b σ bvs r h).
  - apply last_None in El. subst b. simpl.
    erewrite run_bind by (by eapply run_Array_push).
    eexists _, _. split; [done|].
    by apply (store_inv_push σ0 rbs rb bs [] σ es r h).
Qed.

Lemma bind_throws {A B : Type} (m : Store.M A) (f : A → Store.M B) σ σ' :
  m σ = (Store.Throws, σ') → (m ≫= f) σ = (Store.Throws, σ').
Proof. intros E. by rewrite bind_run, E. Qed.

Lemma for_loop_hole σ0 hourlyData vs1 vs2 samples fuel rbs rb st σ i :
  σ0 !! hourlyData
  = Some (Store.OArray (vs1 ++ Store.Undefined :: vs2)) →
  is_samples σ0 vs1 samples →
  store_inv σ0 rbs rb st σ →
  (i ≤ length vs1)%nat → (length vs1 - i < fuel)%nat →
  ∃ σ',
    Store.for_loop fuel (Store.Ref hourlyData) (Store.Ref rbs) i
                   (Store.Ref rb) σ
    = (Store.Throws, σ').
Proof.
  intros Harr Hvs1. revert rb st σ i.
  induction fuel as [|fuel IH]; intros rb st σ i Hinv Hi Hfuel; [lia|].
  simpl.
  assert (σ !! hourlyData
          = Some (Store.OArray (vs1 ++ Store.Undefined :: vs2))) as Hhd.
  { eapply lookup_weaken; [done|]. by destruct Hinv. }
  erewrite run_bind by (by eapply run_Array_length).
  rewrite length_app. simpl.
  destruct (Nat.ltb_spec i (length vs1 + S (length vs2))) as [_|?]; [|lia].
  destruct (decide (i = length vs1)) as [->|Hne].
  - exists σ. apply bind_throws. unfold Store.loop_body.
    erewrite run_bind by (by eapply run_Array_get).
    rewrite lookup_app_r, Nat.sub_diag by lia. simpl. done.
  - pose proof (Forall2_length _ _ _ Hvs1) as Hlen.
    destruct (lookup_lt_is_Some_2 samples i ltac:(lia)) as [h Hh].
    destruct (is_samples_lookup _ _ _ _ _ Hvs1 Hh) as (r & Hr & Hrh).
    destruct (loop_body_sample σ0 hourlyData _ rbs rb st σ i r h Harr
                ltac:(by apply lookup_app_l_Some) Hrh Hinv)
      as (rb1 & σ1 & Hrun & Hinv1).
    erewrite run_bind by exact Hrun.
    apply (IH rb1 (step st h) σ1 (S i) Hinv1); lia.
Qed.

(** If an element of the input array is missing ([undefined]) and the
    elements before it are sample objects, the call throws a [TypeError]
    when the loop reaches it, given a budget that lets the loop get
    there: no windows are returned for the samples before it, and the
    objects of the caller's store are unchanged. *)
Theorem groupByTimeSlots_missing_element (σ : Store.heap)
    (hourlyData : Store.loc) (vs1 vs2 : list Store.val)
    (samples : list sample) (fuel : nat) :
  σ !! hourlyData = Some (Store.OArray (vs1 ++ Store.Undefined :: vs2)) →
  is_samples σ vs1 samples →
  (length vs1 < fuel)%nat →
  ∃ σ', Store.groupByTimeSlots fuel (Store.Ref hourlyData) σ
        = (Store.Throws, σ') ∧
        ∀ l o, σ !! l = Some o → σ' !! l = Some o.
Proof.
  intros Harr Hvs1 Hfuel.
  assert (∃ σ', Store.groupByTimeSlots fuel (Store.Ref hourlyData) σ
                = (Store.Throws, σ')) as [σ' Hrun].
  { unfold Store.groupByTimeSlots.
    erewrite run_bind by reflexivity. erewrite run_bind by reflexivity.
    destruct (for_loop_hole σ hourlyData vs1 vs2 samples fuel _ _ _ _ 0%nat
                Harr Hvs1 (store_inv_init σ) ltac:(lia) ltac:(lia))
      as (σ' & Hloop).
    exists σ'. by apply bind_throws. }
  exists σ'. split; [done|].
  destruct (preserves_groupByTimeSlots σ fuel (Store.Ref hourlyData) σ)
    as [Hsub _]; [done|].
  rewrite Hrun in Hsub. simpl in Hsub.
  intros l o Hl. by eapply lookup_weaken.
Qed.

Lemma groupByTimeSlots_missing_element_witness :
  let σ : Store.heap :=
    <[1%positive := Store.OArray [Store.Ref 2; Store.Undefined; Store.Ref 2]]>
    (<[2%positive := Store.OSample (Sample 0 0.5)]> ∅) in
  ∃ σ', Store.groupByTimeSlots 4 (Store.Ref 1) σ = (Store.Throws, σ') ∧
        σ' !! 2%positive = Some (Store.OSample (Sample 0 0.5)).
Proof.
  intros σ.
  destruct (groupByTimeSlots_missing_element σ 1%positive [Store.Ref 2]
              [Store.Ref 2] [Sample 0 0.5] 4)
    as (σ' & Hrun & Hsame).
  - reflexivity.
  - constructor; [|constructor]. exists 2%positive. split; reflexivity.
  - simpl. lia.
  - exists σ'. split; [exact Hrun|]. apply Hsame. reflexivity.
Defined.
